(** * twitchcore/types/coretypes.h

    The header declares two type aliases ([utf8char], [uint]), an
    export-visibility macro ([TTVSDK_API]) selected by [#if
    TTV_PLATFORM_MAC], and the statement macro [UNUSED].  Nothing in it is
    executable on its own: what it means is fixed by the preprocessor and
    by the language.  The development therefore has three layers:

    - the header itself, as the list of its preprocessor lines
      ([coretypes_h]), and a small preprocessor that runs over it;
    - the integer types the aliases stand for, over a [platform] record
      that holds what the language leaves to the implementation;
    - a fragment of the C++ expression grammar with its typing and
      evaluation, in which the token sequence produced by [UNUSED] is
      parsed and run. *)

From stdpp Require Import gmap strings list.
From Stdlib Require Import ZArith Lia.

Local Open Scope Z_scope.

(** ** Preprocessing tokens *)

Inductive token : Type :=
| TIdent (s : string)
| TNum (n : Z)
| TStr (s : string)
| TTypedef | TVoid | TChar | TInt | TUnsigned
| TLParen | TRParen | TSemi | TComma
| TPlus | TMinus | TStar | TSlash | TAssign | TPlusPlus.

#[global] Instance token_eq_dec : EqDecision token.
Proof. solve_decision. Defined.

(** ** Macros and preprocessor lines *)

Inductive macro : Type :=
| MObject (body : list token)
| MFunction (params : list string) (body : list token).

Inductive pp_line : Type :=
| PPragmaOnce
| PInclude (header : string)
| PIf (cond : list token)
| PElse
| PEndif
| PDefine (name : string) (m : macro)
| PText (toks : list token).

(** The header, line by line (comments are dropped by the preprocessor
    before anything else happens, the lint directive among them). *)
Definition coretypes_h : list pp_line :=
  [ PPragmaOnce;
    PInclude "stdint.h";
    PInclude "cstddef";
    PIf [TIdent "TTV_PLATFORM_MAC"];
    PDefine "TTVSDK_API"
      (MObject [TIdent "__attribute__"; TLParen; TLParen; TIdent "visibility";
                TLParen; TStr "default"; TRParen; TRParen; TRParen]);
    PElse;
    PDefine "TTVSDK_API" (MObject []);
    PEndif;
    PText [TTypedef; TChar; TIdent "utf8char"; TSemi];
    PText [TTypedef; TUnsigned; TInt; TIdent "uint"; TSemi];
    PDefine "UNUSED" (MFunction ["x"] [TLParen; TVoid; TRParen; TIdent "x"; TSemi]) ].

(** The header's own lines, those after the two includes (lines 14 to
    27). *)
Definition coretypes_h_own : list pp_line := drop 3 coretypes_h.

(** The replacement list of [TTVSDK_API] on the designated platform. *)
Definition visibility_default : list token :=
  [TIdent "__attribute__"; TLParen; TLParen; TIdent "visibility";
   TLParen; TStr "default"; TRParen; TRParen; TRParen].

(** ** The preprocessor *)

(** The preprocessor carries the macro table, the stack of open
    conditionals (one flag per [#if]: is the branch being read the one
    that was selected) and the text put out so far. *)
Record pp_state : Type := PPState {
  pp_macros : gmap string macro;
  pp_conds : list bool;
  pp_out : list token
}.

Definition pp_active (st : pp_state) : bool := forallb id (pp_conds st).

(** *** The controlling expression of [#if]

    The expression is macro-replaced, what is left of identifiers and
    keywords becomes [0] ([true] becomes [1]), and the result is
    evaluated as an integer constant expression in the widest integer
    type.  The model follows the preprocessor of the supported
    toolchains where the language leaves a choice (a literal that does
    not fit is cut to the width of the type; signed overflow wraps).
    [None] is an error, or one of two things the model leaves out:
    invoking a function-like macro inside the expression, and the
    operators the token type does not have. *)

(** The width of [intmax_t] and [uintmax_t]. *)
Definition intmax_bits : Z := 64.

(** Names that are operators although they are spelled like
    identifiers. *)
Definition pp_operator_name (x : string) : bool :=
  bool_decide (x ∈ ["and"; "and_eq"; "bitand"; "bitor"; "compl"; "not"; "not_eq";
                    "or"; "or_eq"; "xor"; "xor_eq";
                    "__has_include"; "__has_include_next"; "__has_cpp_attribute";
                    "__has_attribute"; "__has_builtin"]).

(** The name a token has as an operand of [defined]: identifiers and
    keywords have one. *)
Definition pp_name (t : token) : option string :=
  match t with
  | TIdent x => if pp_operator_name x then None else Some x
  | TTypedef => Some "typedef"
  | TVoid => Some "void"
  | TChar => Some "char"
  | TInt => Some "int"
  | TUnsigned => Some "unsigned"
  | _ => None
  end.

Definition pp_defined (M : gmap string macro) (y : string) : token :=
  TNum (if M !! y is Some _ then 1 else 0).

(** Replacement of the object-like macros in a controlling expression.
    A name is not replaced inside its own replacement ([hide]); the
    operand of [defined] is not replaced; the name of a function-like
    macro that is not followed by a parenthesis is left alone.  [depth]
    bounds the nesting of replacements, which cannot exceed the number of
    macros. *)
Fixpoint expand_objects (depth : nat) (M : gmap string macro) (hide : list string)
    (ts : list token) {struct depth} : option (list token) :=
  match depth with
  | O => None
  | S d =>
      (fix go (ts : list token) : option (list token) :=
         match ts with
         | [] => Some []
         | TIdent x :: r =>
             if bool_decide (x = "defined") then
               match r with
               | [] => None
               | t :: r1 =>
                   match pp_name t with
                   | Some y => (pp_defined M y ::.) <$> go r1
                   | None =>
                       match t, r1 with
                       | TLParen, t1 :: TRParen :: r2 =>
                           y ← pp_name t1; (pp_defined M y ::.) <$> go r2
                       | _, _ => None
                       end
                   end
               end
             else if pp_operator_name x then None
             else if bool_decide (x ∈ hide) then (TIdent x ::.) <$> go r
             else
               match M !! x with
               | Some (MObject body) =>
                   b ← expand_objects d M (x :: hide) body;
                   r' ← go r;
                   Some (b ++ r')
               | Some (MFunction _ _) =>
                   match r with
                   | TLParen :: _ => None
                   | _ => (TIdent x ::.) <$> go r
                   end
               | None => (TIdent x ::.) <$> go r
               end
         | t :: r => (t ::.) <$> go r
         end) ts
  end.

(** What is left of identifiers and keywords after replacement. *)
Definition pp_zero (t : token) : token :=
  match t with
  | TIdent x => TNum (if bool_decide (x = "true") then 1 else 0)
  | TTypedef | TVoid | TChar | TInt | TUnsigned => TNum 0
  | _ => t
  end.

Inductive pp_op : Type := PMul | PDiv | PAdd | PSub | PComma.

Inductive pp_expr : Type :=
| PNum (n : Z)
| PNeg (e : pp_expr)
| PPos (e : pp_expr)
| PBin (op : pp_op) (l r : pp_expr).

Definition pp_op_of_token (t : token) : option pp_op :=
  match t with
  | TStar => Some PMul
  | TSlash => Some PDiv
  | TPlus => Some PAdd
  | TMinus => Some PSub
  | TComma => Some PComma
  | _ => None
  end.

Definition pp_prec (op : pp_op) : nat :=
  match op with
  | PComma => 0
  | PAdd | PSub => 1
  | PMul | PDiv => 2
  end%nat.

Definition pp_apply_rhs (l : pp_expr) (rs : list (pp_op * pp_expr)) : pp_expr :=
  foldl (λ l '(op, r), PBin op l r) l rs.

(** The expressions of the fragment: numbers, parentheses, unary and
    binary [+ - * /], and the comma. *)
Fixpoint pp_parse_unary (fuel : nat) (ts : list token) : option (pp_expr * list token) :=
  match fuel with
  | O => None
  | S n =>
      match ts with
      | TNum k :: r => Some (PNum k, r)
      | TLParen :: r =>
          '(l, r1) ← pp_parse_unary n r;
          '(rs, r2) ← pp_parse_rhs n 0 r1;
          match r2 with
          | TRParen :: r3 => Some (pp_apply_rhs l rs, r3)
          | _ => None
          end
      | TMinus :: r => '(e, r1) ← pp_parse_unary n r; Some (PNeg e, r1)
      | TPlus :: r => '(e, r1) ← pp_parse_unary n r; Some (PPos e, r1)
      | _ => None
      end
  end
with pp_parse_rhs (fuel : nat) (min : nat) (ts : list token)
    : option (list (pp_op * pp_expr) * list token) :=
  match fuel with
  | O => None
  | S n =>
      match ts with
      | [] => Some ([], [])
      | t :: r =>
          match pp_op_of_token t with
          | Some op =>
              if (min <=? pp_prec op)%nat then
                '(l, r1) ← pp_parse_unary n r;
                '(rs, r2) ← pp_parse_rhs n (S (pp_prec op)) r1;
                '(more, r3) ← pp_parse_rhs n min r2;
                Some ((op, pp_apply_rhs l rs) :: more, r3)
              else Some ([], ts)
          | None => Some ([], ts)
          end
      end
  end.

Definition pp_parse (ts : list token) : option pp_expr :=
  '(l, r1) ← pp_parse_unary (S (length ts)) ts;
  '(rs, r2) ← pp_parse_rhs (S (length ts)) 0 r1;
  match r2 with
  | [] => Some (pp_apply_rhs l rs)
  | _ :: _ => None
  end.

(** A value of the widest integer type: its bits, as a number below
    [2 ^ intmax_bits], and whether the type is the unsigned one. *)
Definition pp_literal (n : Z) : Z * bool :=
  (n mod 2 ^ intmax_bits,
   (2 ^ (intmax_bits - 1) <=? n) && (n <? 2 ^ intmax_bits)).

Definition pp_value (v : Z * bool) : Z :=
  if v.2 || (v.1 <? 2 ^ (intmax_bits - 1)) then v.1 else v.1 - 2 ^ intmax_bits.

(** Arithmetic is unsigned as soon as one operand is; a division by zero
    is an error. *)
Fixpoint pp_eval (e : pp_expr) : option (Z * bool) :=
  match e with
  | PNum n => Some (pp_literal n)
  | PNeg e1 => '(a, u) ← pp_eval e1; Some ((- a) mod 2 ^ intmax_bits, u)
  | PPos e1 => pp_eval e1
  | PBin PComma l r => _ ← pp_eval l; pp_eval r
  | PBin op l r =>
      '(a, ua) ← pp_eval l;
      '(b, ub) ← pp_eval r;
      let u := ua || ub in
      match op with
      | PMul => Some ((a * b) mod 2 ^ intmax_bits, u)
      | PAdd => Some ((a + b) mod 2 ^ intmax_bits, u)
      | PSub => Some ((a - b) mod 2 ^ intmax_bits, u)
      | PDiv =>
          if b =? 0 then None
          else if u then Some (a / b, true)
          else Some ((pp_value (a, false) ÷ pp_value (b, false)) mod 2 ^ intmax_bits, false)
      | PComma => None
      end
  end.

(** Value of the controlling expression [cond] of an [#if] under the
    macros [M]; the branch is taken when it is not zero. *)
Definition cond_value (M : gmap string macro) (cond : list token) : option Z :=
  ts ← expand_objects (S (size M)) M [] cond;
  e ← pp_parse (pp_zero <$> ts);
  pp_value <$> pp_eval e.

(** The platform flag of the header, as its [#if] reads it under the
    command-line macros [D]. *)
Definition TTV_PLATFORM_MAC (D : gmap string macro) : option Z :=
  cond_value D [TIdent "TTV_PLATFORM_MAC"].

(** One line.  The two system headers are not part of the repository:
    what they define (macros such as [NULL], types such as [size_t]) is
    left out, and an [#include] of them is passed over, so that the macros
    and the text are those of the command line and of the header's own
    lines.  A [#define] of a name that is already defined replaces the
    definition.  In a branch that is not selected, only the conditionals
    themselves are followed. *)
Definition pp_step (st : pp_state) (l : pp_line) : option pp_state :=
  match l with
  | PPragmaOnce | PInclude _ => Some st
  | PIf c =>
      if pp_active st then
        v ← cond_value (pp_macros st) c;
        Some (PPState (pp_macros st) (negb (v =? 0) :: pp_conds st) (pp_out st))
      else Some (PPState (pp_macros st) (false :: pp_conds st) (pp_out st))
  | PElse =>
      match pp_conds st with
      | b :: cs => Some (PPState (pp_macros st) (negb b :: cs) (pp_out st))
      | [] => None
      end
  | PEndif =>
      match pp_conds st with
      | _ :: cs => Some (PPState (pp_macros st) cs (pp_out st))
      | [] => None
      end
  | PDefine name m =>
      if pp_active st
      then Some (PPState (<[name := m]> (pp_macros st)) (pp_conds st) (pp_out st))
      else Some st
  | PText toks =>
      if pp_active st
      then Some (PPState (pp_macros st) (pp_conds st) (pp_out st ++ toks))
      else Some st
  end.

Fixpoint pp_lines (st : pp_state) (ls : list pp_line) : option pp_state :=
  match ls with
  | [] => Some st
  | l :: ls' => st' ← pp_step st l; pp_lines st' ls'
  end.

(** [preprocess D ls]: run over the lines [ls] with the macros [D] given
    on the command line.  Every [#if] has to be closed at the end. *)
Definition preprocess (D : gmap string macro) (ls : list pp_line) : option pp_state :=
  st ← pp_lines (PPState D [] []) ls;
  match pp_conds st with
  | [] => Some st
  | _ :: _ => None
  end.

(** One macro replacement: the parameters of the replacement list are
    replaced by the arguments.  Collecting the arguments from the token
    stream and rescanning the result are not modelled: a call is given by
    its list of arguments. *)
Fixpoint subst_params (ps : list (string * list token)) (body : list token) : list token :=
  match body with
  | [] => []
  | TIdent x :: body' =>
      match list_find (λ pa, bool_decide (pa.1 = x)) ps with
      | Some (_, (_, arg)) => arg ++ subst_params ps body'
      | None => TIdent x :: subst_params ps body'
      end
  | t :: body' => t :: subst_params ps body'
  end.

Definition expand_object (M : gmap string macro) (name : string) : option (list token) :=
  match M !! name with
  | Some (MObject body) => Some body
  | _ => None
  end.

Definition expand_function (M : gmap string macro) (name : string)
    (args : list (list token)) : option (list token) :=
  match M !! name with
  | Some (MFunction params body) =>
      if bool_decide (length params = length args)
      then Some (subst_params (zip params args) body)
      else None
  | _ => None
  end.

(** The two macros of the header, as they are used. *)
Definition TTVSDK_API (M : gmap string macro) : option (list token) :=
  expand_object M "TTVSDK_API".

Definition UNUSED (M : gmap string macro) (x : list token) : option (list token) :=
  expand_function M "UNUSED" [x].

(** ** Types *)

Inductive ctype : Type :=
| CVoid | CChar | CInt | CUInt
| CNamed (name : string).

#[global] Instance ctype_eq_dec : EqDecision ctype.
Proof. solve_decision. Defined.

(** The aliases of the header, as type names. *)
Definition utf8char : ctype := CNamed "utf8char".
Definition uint : ctype := CNamed "uint".

(** A typedef table maps an alias to the type it stands for, already
    resolved: a typedef introduces no new type. *)
Definition resolve (T : gmap string ctype) (ty : ctype) : option ctype :=
  match ty with
  | CNamed x => T !! x
  | _ => Some ty
  end.

Definition parse_type_spec (T : gmap string ctype) (ts : list token)
    : option (ctype * list token) :=
  match ts with
  | TVoid :: r => Some (CVoid, r)
  | TChar :: r => Some (CChar, r)
  | TInt :: r => Some (CInt, r)
  | TUnsigned :: TInt :: r => Some (CUInt, r)
  | TIdent x :: r => if T !! x is Some _ then Some (CNamed x, r) else None
  | _ => None
  end.

(** The declarations of the header are typedefs only. *)
Fixpoint parse_typedefs (fuel : nat) (T : gmap string ctype) (ts : list token)
    : option (gmap string ctype) :=
  match ts with
  | [] => Some T
  | TTypedef :: r =>
      match fuel with
      | O => None
      | S fuel' =>
          '(ty, r1) ← parse_type_spec T r;
          cty ← resolve T ty;
          match r1 with
          | TIdent x :: TSemi :: r2 => parse_typedefs fuel' (<[x := cty]> T) r2
          | _ => None
          end
      end
  | _ => None
  end.

(** The macros and the typedefs the header leaves behind when nothing is
    defined on the command line. *)
Definition header_macros : gmap string macro :=
  <["UNUSED" := MFunction ["x"] [TLParen; TVoid; TRParen; TIdent "x"; TSemi]]>
    (<["TTVSDK_API" := MObject []]> ∅).

Definition header_typedefs : gmap string ctype :=
  <["uint" := CUInt]> (<["utf8char" := CChar]> ∅).

(** What a translation unit that includes the header (and nothing else)
    sees of the header's own: the macro table and the typedef table,
    without the contents of the system headers. *)
Definition translation_unit (D : gmap string macro)
    : option (gmap string macro * gmap string ctype) :=
  st ← preprocess D coretypes_h;
  T ← parse_typedefs (length (pp_out st)) ∅ (pp_out st);
  Some (pp_macros st, T).

(** ** Integer types on a platform *)

(** What the language leaves to the implementation: the width of a byte,
    whether plain [char] is signed, and the width of [int] and
    [unsigned int]. *)
Record platform : Type := Platform {
  char_bits : Z;
  char_signed : bool;
  int_bits : Z
}.

Definition type_bits (p : platform) (ty : ctype) : option Z :=
  match ty with
  | CChar => Some (char_bits p)
  | CInt | CUInt => Some (int_bits p)
  | CVoid | CNamed _ => None
  end.

Definition type_signed (p : platform) (ty : ctype) : bool :=
  match ty with
  | CChar => char_signed p
  | CInt => true
  | _ => false
  end.

(** The values of an integer type of [w] bits, as a half-open interval. *)
Definition type_range (p : platform) (ty : ctype) : option (Z * Z) :=
  w ← type_bits p ty;
  Some (if type_signed p ty then (- 2 ^ (w - 1), 2 ^ (w - 1)) else (0, 2 ^ w)).

Definition in_range (p : platform) (ty : ctype) (v : Z) : bool :=
  match type_range p ty with
  | Some (lo, hi) => (lo <=? v) && (v <? hi)
  | None => false
  end.

(** [sizeof], in bytes; [void] and unresolved names have none. *)
Definition sizeof (p : platform) (ty : ctype) : option Z :=
  w ← type_bits p ty; Some (w / char_bits p).

(** The value an object of type [ty] holds when its storage holds the bit
    pattern [raw] (read as a number below [2 ^ w]), and the pattern that
    stores a value: two's complement for the signed types. *)
Definition decode (p : platform) (ty : ctype) (raw : Z) : option Z :=
  w ← type_bits p ty;
  Some (if type_signed p ty && (2 ^ (w - 1) <=? raw) then raw - 2 ^ w else raw).

Definition encode (p : platform) (ty : ctype) (v : Z) : option Z :=
  w ← type_bits p ty; Some (v mod 2 ^ w).

(** The same through a type name, which may be an alias. *)
Definition sizeof_type (p : platform) (T : gmap string ctype) (ty : ctype) : option Z :=
  cty ← resolve T ty; sizeof p cty.

Definition is_value (p : platform) (T : gmap string ctype) (ty : ctype) (v : Z) : bool :=
  match resolve T ty with
  | Some cty => in_range p cty v
  | None => false
  end.

Definition decode_type (p : platform) (T : gmap string ctype) (ty : ctype) (raw : Z)
    : option Z :=
  cty ← resolve T ty; decode p cty raw.

Definition encode_type (p : platform) (T : gmap string ctype) (ty : ctype) (v : Z)
    : option Z :=
  cty ← resolve T ty; encode p cty v.

(** ** Arithmetic *)

Inductive binop : Type := Mul | Div | Add | Sub | Assign | Comma.

#[global] Instance binop_eq_dec : EqDecision binop.
Proof. solve_decision. Defined.

(** Integer promotion and the usual arithmetic conversions, for the types
    of the model: [char] is promoted to [int], and [unsigned int] wins
    over [int]. *)
Definition promote (ty : ctype) : ctype :=
  match ty with
  | CChar => CInt
  | _ => ty
  end.

Definition common_type (t1 t2 : ctype) : ctype :=
  match promote t1, promote t2 with
  | CUInt, _ | _, CUInt => CUInt
  | _, _ => CInt
  end.

(** Conversion of a value to an integer type: the value itself when it
    fits, otherwise the value of that type congruent to it. *)
Definition convert (p : platform) (ty : ctype) (v : Z) : Z :=
  match type_bits p ty with
  | Some w =>
      if type_signed p ty
      then (v + 2 ^ (w - 1)) mod 2 ^ w - 2 ^ (w - 1)
      else v mod 2 ^ w
  | None => v
  end.

Definition exact_result (op : binop) (a b : Z) : option Z :=
  match op with
  | Mul => Some (a * b)
  | Div => if b =? 0 then None else Some (a ÷ b)
  | Add => Some (a + b)
  | Sub => Some (a - b)
  | Assign | Comma => None
  end.

(** [arith p ty op a b]: the operation at the (converted) operand type
    [ty].  Unsigned arithmetic is modulo [2 ^ w]; a signed result that
    does not fit, and a division by zero, are undefined ([None]). *)
Definition arith (p : platform) (ty : ctype) (op : binop) (a b : Z) : option Z :=
  r ← exact_result op a b;
  match ty with
  | CUInt => Some (r mod 2 ^ int_bits p)
  | CInt => if in_range p CInt r then Some r else None
  | _ => None
  end.

(** ** Expressions and statements *)

Inductive expr : Type :=
| ELit (n : Z)
| EVar (x : string)
| EParen (e : expr)
| ECast (ty : ctype) (e : expr)
| ENeg (e : expr)
| EPreInc (e : expr)
| EPostInc (e : expr)
| EBin (op : binop) (l r : expr).

Inductive stmt : Type :=
| SEmpty
| SExpr (e : expr)
| SDecl (ty : ctype) (x : string) (init : option expr).

(** *** Parsing *)

Definition binop_of_token (t : token) : option binop :=
  match t with
  | TStar => Some Mul
  | TSlash => Some Div
  | TPlus => Some Add
  | TMinus => Some Sub
  | TAssign => Some Assign
  | TComma => Some Comma
  | _ => None
  end.

(** Binding strength of the binary operators, and the least strength the
    right operand may have: one more for the operators that group to the
    left, the same for assignment, which groups to the right. *)
Definition prec (op : binop) : nat :=
  match op with
  | Comma => 0
  | Assign => 1
  | Add | Sub => 2
  | Mul | Div => 3
  end%nat.

Definition rhs_prec (op : binop) : nat :=
  match op with
  | Assign => 1
  | _ => S (prec op)
  end%nat.

(** A left operand followed by operators and their right operands. *)
Definition apply_rhs (l : expr) (rs : list (binop * expr)) : expr :=
  foldl (λ l '(op, r), EBin op l r) l rs.

Fixpoint parse_postfix (e : expr) (ts : list token) : expr * list token :=
  match ts with
  | TPlusPlus :: r => parse_postfix (EPostInc e) r
  | _ => (e, ts)
  end.

(** The parenthesised type name that opens a cast. *)
Definition parse_cast_prefix (T : gmap string ctype) (ts : list token)
    : option (ctype * list token) :=
  match parse_type_spec T ts with
  | Some (ty, TRParen :: r) => Some (ty, r)
  | _ => None
  end.

(** [parse_unary] reads a cast-expression (casts and prefix operators
    over a postfix-expression); [parse_rhs min] reads the operators of
    strength at least [min] that follow it, each with its right operand.
    An identifier that names a type is not an expression. *)
Fixpoint parse_unary (T : gmap string ctype) (fuel : nat) (ts : list token)
    : option (expr * list token) :=
  match fuel with
  | O => None
  | S n =>
      match ts with
      | TIdent x :: r =>
          if T !! x is Some _ then None else Some (parse_postfix (EVar x) r)
      | TNum k :: r => Some (parse_postfix (ELit k) r)
      | TLParen :: r =>
          match parse_cast_prefix T r with
          | Some (ty, r1) =>
              '(e, r2) ← parse_unary T n r1; Some (ECast ty e, r2)
          | None =>
              '(l, r1) ← parse_unary T n r;
              '(rs, r2) ← parse_rhs T n 0 r1;
              match r2 with
              | TRParen :: r3 => Some (parse_postfix (EParen (apply_rhs l rs)) r3)
              | _ => None
              end
          end
      | TMinus :: r => '(e, r1) ← parse_unary T n r; Some (ENeg e, r1)
      | TPlusPlus :: r => '(e, r1) ← parse_unary T n r; Some (EPreInc e, r1)
      | _ => None
      end
  end
with parse_rhs (T : gmap string ctype) (fuel : nat) (min : nat) (ts : list token)
    : option (list (binop * expr) * list token) :=
  match fuel with
  | O => None
  | S n =>
      match ts with
      | [] => Some ([], [])
      | t :: r =>
          match binop_of_token t with
          | Some op =>
              if (min <=? prec op)%nat then
                '(l, r1) ← parse_unary T n r;
                '(rs, r2) ← parse_rhs T n (rhs_prec op) r1;
                '(more, r3) ← parse_rhs T n min r2;
                Some ((op, apply_rhs l rs) :: more, r3)
              else Some ([], ts)
          | None => Some ([], ts)
          end
      end
  end.

Definition parse_binary (T : gmap string ctype) (fuel : nat) (min : nat) (ts : list token)
    : option (expr * list token) :=
  '(l, r1) ← parse_unary T fuel ts;
  '(rs, r2) ← parse_rhs T fuel min r1;
  Some (apply_rhs l rs, r2).

(** An assignment-expression (what an argument is: no comma outside
    parentheses) and an expression, each taking the whole input. *)
Definition parse_assignment_expression (T : gmap string ctype) (ts : list token)
    : option expr :=
  match parse_binary T (S (length ts)) 1 ts with
  | Some (e, []) => Some e
  | _ => None
  end.

Definition parse_expression (T : gmap string ctype) (ts : list token) : option expr :=
  match parse_binary T (S (length ts)) 0 ts with
  | Some (e, []) => Some e
  | _ => None
  end.

(** One statement off the front of the input. *)
Definition parse_stmt (T : gmap string ctype) (ts : list token)
    : option (stmt * list token) :=
  match ts with
  | TSemi :: r => Some (SEmpty, r)
  | _ =>
      match parse_type_spec T ts with
      | Some (ty, TIdent x :: TSemi :: r) => Some (SDecl ty x None, r)
      | Some (ty, TIdent x :: TAssign :: r) =>
          match parse_binary T (S (length r)) 1 r with
          | Some (e, TSemi :: r1) => Some (SDecl ty x (Some e), r1)
          | _ => None
          end
      | Some _ => None
      | None =>
          match parse_binary T (S (length ts)) 0 ts with
          | Some (e, TSemi :: r) => Some (SExpr e, r)
          | _ => None
          end
      end
  end.

Fixpoint parse_stmts (T : gmap string ctype) (fuel : nat) (ts : list token)
    : option (list stmt) :=
  match ts with
  | [] => Some []
  | _ =>
      match fuel with
      | O => None
      | S n => '(s, r) ← parse_stmt T ts; (s ::.) <$> parse_stmts T n r
      end
  end.

(** *** Typing *)

Definition is_void (ty : ctype) : bool :=
  match ty with
  | CVoid => true
  | _ => false
  end.

(** [typeof p T Γ e]: the type of [e] and whether it is an lvalue, for the
    variables [Γ] (with their types resolved); [None] when [e] is
    ill-formed.  A literal is an [int] and has to fit one (wider literals
    are outside the model).  An operand of an arithmetic operator or of an
    assignment cannot be of type [void]; anything can be cast to [void]. *)
Fixpoint typeof (p : platform) (T Γ : gmap string ctype) (e : expr) : option (ctype * bool) :=
  match e with
  | ELit n => if in_range p CInt n then Some (CInt, false) else None
  | EVar x => ty ← Γ !! x; Some (ty, true)
  | EParen e1 => typeof p T Γ e1
  | ECast ty e1 =>
      '(t1, _) ← typeof p T Γ e1;
      cty ← resolve T ty;
      if is_void cty then Some (CVoid, false)
      else if is_void t1 then None
      else Some (cty, false)
  | ENeg e1 =>
      '(t1, _) ← typeof p T Γ e1;
      if is_void t1 then None else Some (promote t1, false)
  | EPreInc e1 =>
      '(t1, lv) ← typeof p T Γ e1;
      if lv && negb (is_void t1) then Some (t1, true) else None
  | EPostInc e1 =>
      '(t1, lv) ← typeof p T Γ e1;
      if lv && negb (is_void t1) then Some (t1, false) else None
  | EBin Comma l r =>
      _ ← typeof p T Γ l; typeof p T Γ r
  | EBin Assign l r =>
      '(tl, lv) ← typeof p T Γ l;
      '(tr, _) ← typeof p T Γ r;
      if lv && negb (is_void tl) && negb (is_void tr) then Some (tl, true) else None
  | EBin _ l r =>
      '(tl, _) ← typeof p T Γ l;
      '(tr, _) ← typeof p T Γ r;
      if negb (is_void tl) && negb (is_void tr)
      then Some (common_type tl tr, false) else None
  end.

(** A statement is checked against the variables in scope and may add
    one. *)
Definition check_stmt (p : platform) (T Γ : gmap string ctype) (s : stmt)
    : option (gmap string ctype) :=
  match s with
  | SEmpty => Some Γ
  | SExpr e => _ ← typeof p T Γ e; Some Γ
  | SDecl ty x init =>
      cty ← resolve T ty;
      if is_void cty then None
      else if Γ !! x is Some _ then None
      else
        match init with
        | None => Some (<[x := cty]> Γ)
        | Some e =>
            '(te, _) ← typeof p T Γ e;
            if is_void te then None else Some (<[x := cty]> Γ)
        end
  end.

(** Compiling the tokens of one statement: parse, then check. *)
Definition compile_stmt (p : platform) (T Γ : gmap string ctype) (ts : list token)
    : option stmt :=
  match parse_stmt T ts with
  | Some (s, []) => _ ← check_stmt p T Γ s; Some s
  | _ => None
  end.

(** *** Evaluation *)

(** The side effects of the fragment are the writes to variables; the
    state keeps them in the order in which they happen. *)
Inductive event : Type := EvWrite (x : string) (v : Z).

(** A variable that is declared and has no entry in the store holds an
    indeterminate value. *)
Record state : Type := State {
  st_types : gmap string ctype;
  st_store : gmap string Z;
  st_trace : list event
}.

Inductive result : Type :=
| RVoid
| RVal (ty : ctype) (v : Z)
| RLval (x : string).

(** Reading the value of a result (the lvalue-to-rvalue conversion for a
    variable); reading an indeterminate value is undefined. *)
Definition load (st : state) (r : result) : option (ctype * Z) :=
  match r with
  | RVoid => None
  | RVal ty v => Some (ty, v)
  | RLval x => ty ← st_types st !! x; v ← st_store st !! x; Some (ty, v)
  end.

Definition write (st : state) (x : string) (v : Z) : state :=
  State (st_types st) (<[x := v]> (st_store st)) (st_trace st ++ [EvWrite x v]).

Definition increment (p : platform) (ty : ctype) (v : Z) : option Z :=
  let t := common_type ty CInt in
  v' ← arith p t Add (convert p t v) 1;
  Some (convert p ty v').

(** [eval p T e st]: the result of [e] and the state it leaves, [None]
    when the behaviour is undefined.  Operands are evaluated from left to
    right, the right operand of an assignment first.  A cast to [void]
    discards the result without reading it. *)
Fixpoint eval (p : platform) (T : gmap string ctype) (e : expr) (st : state)
    : option (result * state) :=
  match e with
  | ELit n => Some (RVal CInt n, st)
  | EVar x => if st_types st !! x is Some _ then Some (RLval x, st) else None
  | EParen e1 => eval p T e1 st
  | ECast ty e1 =>
      '(r, st1) ← eval p T e1 st;
      cty ← resolve T ty;
      if is_void cty then Some (RVoid, st1)
      else '(_, v) ← load st1 r; Some (RVal cty (convert p cty v), st1)
  | ENeg e1 =>
      '(r, st1) ← eval p T e1 st;
      '(t1, v) ← load st1 r;
      v' ← arith p (promote t1) Sub 0 (convert p (promote t1) v);
      Some (RVal (promote t1) v', st1)
  | EPreInc e1 =>
      '(r, st1) ← eval p T e1 st;
      match r with
      | RLval x =>
          '(t1, v) ← load st1 r;
          v' ← increment p t1 v;
          Some (RLval x, write st1 x v')
      | _ => None
      end
  | EPostInc e1 =>
      '(r, st1) ← eval p T e1 st;
      match r with
      | RLval x =>
          '(t1, v) ← load st1 r;
          v' ← increment p t1 v;
          Some (RVal t1 v, write st1 x v')
      | _ => None
      end
  | EBin Comma l r =>
      '(_, st1) ← eval p T l st; eval p T r st1
  | EBin Assign l r =>
      '(rr, st1) ← eval p T r st;
      '(_, v) ← load st1 rr;
      '(rl, st2) ← eval p T l st1;
      match rl with
      | RLval x => t ← st_types st2 !! x; Some (RLval x, write st2 x (convert p t v))
      | _ => None
      end
  | EBin op l r =>
      '(rl, st1) ← eval p T l st;
      '(tl, a) ← load st1 rl;
      '(rr, st2) ← eval p T r st1;
      '(tr, b) ← load st2 rr;
      v ← arith p (common_type tl tr) op
            (convert p (common_type tl tr) a) (convert p (common_type tl tr) b);
      Some (RVal (common_type tl tr) v, st2)
  end.

Definition declare (st : state) (x : string) (ty : ctype) : state :=
  State (<[x := ty]> (st_types st)) (delete x (st_store st)) (st_trace st).

Definition exec (p : platform) (T : gmap string ctype) (s : stmt) (st : state)
    : option state :=
  match s with
  | SEmpty => Some st
  | SExpr e => '(_, st1) ← eval p T e st; Some st1
  | SDecl ty x init =>
      cty ← resolve T ty;
      match init with
      | None => Some (declare st x cty)
      | Some e =>
          '(r, st1) ← eval p T e st;
          '(_, v) ← load st1 r;
          Some (write (declare st1 x cty) x (convert p cty v))
      end
  end.

Fixpoint exec_all (p : platform) (T : gmap string ctype) (ss : list stmt) (st : state)
    : option state :=
  match ss with
  | [] => Some st
  | s :: ss' => st1 ← exec p T s st; exec_all p T ss' st1
  end.

(** The state after evaluating an expression alone. *)
Definition state_after (p : platform) (T : gmap string ctype) (e : expr) (st : state)
    : option state :=
  snd <$> eval p T e st.

(** *** Blocks *)

Fixpoint check_stmts (p : platform) (T Γ : gmap string ctype) (ss : list stmt)
    : option (gmap string ctype) :=
  match ss with
  | [] => Some Γ
  | s :: ss' => Γ' ← check_stmt p T Γ s; check_stmts p T Γ' ss'
  end.

(** Compiling the tokens of a sequence of statements. *)
Definition compile_block (p : platform) (T Γ : gmap string ctype) (ts : list token)
    : option (list stmt) :=
  ss ← parse_stmts T (length ts) ts;
  _ ← check_stmts p T Γ ss;
  Some ss.

(** The tokens that name a type. *)
Definition type_tokens (ty : ctype) : list token :=
  match ty with
  | CVoid => [TVoid]
  | CChar => [TChar]
  | CInt => [TInt]
  | CUInt => [TUnsigned; TInt]
  | CNamed x => [TIdent x]
  end.

(** Is the expression a binary operation (outside parentheses)? *)
Definition is_binary (e : expr) : bool :=
  match e with
  | EBin _ _ _ => true
  | _ => false
  end.

(** Does evaluating the expression write to a variable: is there an
    assignment or an increment in it? *)
Fixpoint writes (e : expr) : bool :=
  match e with
  | ELit _ | EVar _ => false
  | EParen e1 | ECast _ e1 | ENeg e1 => writes e1
  | EPreInc _ | EPostInc _ => true
  | EBin Assign _ _ => true
  | EBin _ l r => writes l || writes r
  end.

(** *** Several inclusions *)

(** What a translation unit made of the lines [ls] sees;
    [translation_unit] is the case of the header alone. *)
Definition translate (D : gmap string macro) (ls : list pp_line)
    : option (gmap string macro * gmap string ctype) :=
  st ← preprocess D ls;
  T ← parse_typedefs (length (pp_out st)) ∅ (pp_out st);
  Some (pp_macros st, T).

(** *** Well-formed states *)

Definition is_integer (ty : ctype) : bool :=
  match ty with
  | CChar | CInt | CUInt => true
  | CVoid | CNamed _ => false
  end.

(** Every variable has an integer type, and every variable that holds a
    value holds one of its type. *)
Definition types_ok (st : state) : Prop :=
  ∀ x ty, st_types st !! x = Some ty → is_integer ty = true.

Definition store_ok (p : platform) (st : state) : Prop :=
  ∀ x ty v, st_types st !! x = Some ty → st_store st !! x = Some v →
            in_range p ty v = true.

(** Case analysis of an evaluation that succeeded, one bind at a time. *)
Ltac eval_cases :=
  repeat match goal with
  | H : (_ ≫= _) = Some _ |- _ =>
      apply bind_Some in H; destruct H as (? & ? & H)
  | H : (let '(_, _) := ?x in _) = Some _ |- _ => destruct x
  | H : match ?x with _ => _ end = Some _ |- _ =>
      destruct x eqn:?; try discriminate H
  | H : Some _ = Some _ |- _ => injection H as H
  | H : (_, _) = (_, _) |- _ => injection H as ? ?
  end.

(** * Properties *)

(** ** The header under the preprocessor *)

(** What including the header gives, in one equation: it depends on the
    command line through the value of the platform flag only. *)
Lemma translation_unit_eq (D : gmap string macro) :
  translation_unit D =
    v ← TTV_PLATFORM_MAC D;
    Some (<["UNUSED" := MFunction ["x"] [TLParen; TVoid; TRParen; TIdent "x"; TSemi]]>
            (<["TTVSDK_API" := MObject (if v =? 0 then [] else visibility_default)]> D),
          header_typedefs).
Proof.
  unfold translation_unit, preprocess, coretypes_h, TTV_PLATFORM_MAC.
  cbn [pp_lines pp_step pp_active pp_conds pp_macros pp_out forallb mbind option_bind].
  destruct (cond_value D [TIdent "TTV_PLATFORM_MAC"]) as [v|]; [|done].
  cbn [mbind option_bind]. destruct (v =? 0); reflexivity.
Qed.

Lemma translation_unit_inv (D : gmap string macro) M T :
  translation_unit D = Some (M, T) →
  M !! "TTVSDK_API" =
    (λ v, MObject (if v =? 0 then [] else visibility_default))
      <$> TTV_PLATFORM_MAC D ∧
  M !! "UNUSED" = Some (MFunction ["x"] [TLParen; TVoid; TRParen; TIdent "x"; TSemi]) ∧
  T = header_typedefs.
Proof.
  rewrite translation_unit_eq.
  destruct (TTV_PLATFORM_MAC D) as [v|]; [|done].
  cbn [mbind option_bind fmap option_fmap option_map].
  intros [= <- <-]. split_and!; [|by rewrite lookup_insert_eq|done].
  rewrite lookup_insert_ne by done. by rewrite lookup_insert_eq.
Qed.

Lemma header_typedefs_lookup (x : string) :
  header_typedefs !! x =
    if decide (x = "uint") then Some CUInt
    else if decide (x = "utf8char") then Some CChar else None.
Proof.
  unfold header_typedefs. repeat case_decide; subst; simplify_map_eq; done.
Qed.

Lemma translation_unit_empty :
  translation_unit ∅ = Some (header_macros, header_typedefs).
Proof. reflexivity. Qed.

(** *** The platform flag as the command line gives it *)

Lemma map_lookup_size (D : gmap string macro) (k : string) (m : macro) :
  D !! k = Some m → ∃ d, size D = S d.
Proof.
  intros H. destruct (size D) as [|d] eqn:E; [|by eexists].
  apply map_size_empty_iff in E. subst D. by rewrite lookup_empty in H.
Qed.

Lemma expand_objects_flag (d : nat) (D : gmap string macro) :
  expand_objects (S d) D [] [TIdent "TTV_PLATFORM_MAC"] =
    match D !! "TTV_PLATFORM_MAC" with
    | Some (MObject body) =>
        b ← expand_objects d D ["TTV_PLATFORM_MAC"] body; Some (b ++ [])
    | _ => Some [TIdent "TTV_PLATFORM_MAC"]
    end.
Proof.
  cbn [expand_objects].
  destruct (D !! "TTV_PLATFORM_MAC") as [[body|ps body]|]; reflexivity.
Qed.

(** A flag that is not defined reads as [0]. *)
Lemma TTV_PLATFORM_MAC_undefined (D : gmap string macro) :
  D !! "TTV_PLATFORM_MAC" = None → TTV_PLATFORM_MAC D = Some 0.
Proof.
  intros H. unfold TTV_PLATFORM_MAC, cond_value.
  by rewrite expand_objects_flag, H.
Qed.

(** So does a flag defined as a function-like macro: its name alone is
    not an invocation. *)
Lemma TTV_PLATFORM_MAC_function (D : gmap string macro) ps body :
  D !! "TTV_PLATFORM_MAC" = Some (MFunction ps body) → TTV_PLATFORM_MAC D = Some 0.
Proof.
  intros H. unfold TTV_PLATFORM_MAC, cond_value.
  by rewrite expand_objects_flag, H.
Qed.

(** A flag defined as a number reads as that number in the widest
    integer type. *)
Lemma TTV_PLATFORM_MAC_number (D : gmap string macro) (n : Z) :
  D !! "TTV_PLATFORM_MAC" = Some (MObject [TNum n]) →
  TTV_PLATFORM_MAC D = Some (pp_value (pp_literal n)).
Proof.
  intros H. unfold TTV_PLATFORM_MAC, cond_value.
  rewrite expand_objects_flag, H.
  destruct (map_lookup_size _ _ _ H) as [d ->]. reflexivity.
Qed.

(** A flag defined as nothing leaves [#if] without an expression. *)
Lemma TTV_PLATFORM_MAC_empty (D : gmap string macro) :
  D !! "TTV_PLATFORM_MAC" = Some (MObject []) → TTV_PLATFORM_MAC D = None.
Proof.
  intros H. unfold TTV_PLATFORM_MAC, cond_value.
  rewrite expand_objects_flag, H.
  destruct (map_lookup_size _ _ _ H) as [d ->]. reflexivity.
Qed.

Lemma pp_value_literal_zero (n : Z) :
  (pp_value (pp_literal n) =? 0) = (n mod 2 ^ intmax_bits =? 0).
Proof.
  unfold pp_value, pp_literal, intmax_bits. cbn [fst snd].
  pose proof (Z.mod_pos_bound n (2 ^ 64) eq_refl) as Hm.
  change (64 - 1) with 63.
  destruct ((2 ^ 63 <=? n) && (n <? 2 ^ 64)) eqn:Eu; cbn [orb]; [done|].
  destruct (n mod 2 ^ 64 <? 2 ^ 63) eqn:El; [done|].
  apply Z.ltb_ge in El.
  rewrite (proj2 (Z.eqb_neq (n mod 2 ^ 64 - 2 ^ 64) 0)) by lia.
  symmetry. apply Z.eqb_neq. lia.
Qed.

(** What [TTVSDK_API] is after the header, by the value of the flag. *)
Lemma TTVSDK_API_by_value (D : gmap string macro) (v : Z) :
  TTV_PLATFORM_MAC D = Some v →
  ∃ M T, translation_unit D = Some (M, T) ∧
    TTVSDK_API M = Some (if v =? 0 then [] else visibility_default).
Proof.
  intros Hv.
  pose proof (translation_unit_eq D) as Htu. rewrite Hv in Htu.
  cbn [mbind option_bind] in Htu.
  eexists _, _. split; [exact Htu|].
  unfold TTVSDK_API, expand_object.
  rewrite lookup_insert_ne by done. by rewrite lookup_insert_eq.
Qed.

(** The tokens [UNUSED] leaves for an argument. *)
Lemma UNUSED_tokens (D : gmap string macro) M T (arg : list token) :
  translation_unit D = Some (M, T) →
  UNUSED M arg = Some (TLParen :: TVoid :: TRParen :: arg ++ [TSemi]).
Proof.
  intros (_ & HU & _)%translation_unit_inv.
  unfold UNUSED, expand_function. rewrite HU. reflexivity.
Qed.

(** ** The parser *)

Section Parser.
Context (T : gmap string ctype).

Lemma parse_postfix_semi e ts :
  parse_postfix e (ts ++ [TSemi]) =
    ((parse_postfix e ts).1, (parse_postfix e ts).2 ++ [TSemi]).
Proof.
  revert e. induction ts as [|t ts IH]; intros e; [done|].
  destruct t; try done. apply IH.
Qed.

Lemma parse_type_spec_semi ts ty r :
  parse_type_spec T ts = Some (ty, r) →
  parse_type_spec T (ts ++ [TSemi]) = Some (ty, r ++ [TSemi]).
Proof.
  destruct ts as [|t ts]; [done|].
  destruct t; simpl; try done; try (by intros [= <- <-]).
  - destruct (T !! s); [|done]. by intros [= <- <-].
  - destruct ts as [|t ts]; [done|]. destruct t; simpl; try done.
    by intros [= <- <-].
Qed.

Lemma parse_type_spec_semi_None ts :
  parse_type_spec T ts = None → parse_type_spec T (ts ++ [TSemi]) = None.
Proof.
  destruct ts as [|t ts]; [done|].
  destruct t; simpl; try done.
  - by destruct (T !! s).
  - destruct ts as [|t ts]; [done|]. by destruct t.
Qed.

Lemma parse_cast_prefix_semi ts ty r :
  parse_cast_prefix T ts = Some (ty, r) →
  parse_cast_prefix T (ts ++ [TSemi]) = Some (ty, r ++ [TSemi]).
Proof.
  unfold parse_cast_prefix.
  destruct (parse_type_spec T ts) as [[ty' r']|] eqn:E; [|done].
  rewrite (parse_type_spec_semi _ _ _ E).
  destruct r' as [|t r']; [done|]. destruct t; try done.
  by intros [= <- <-].
Qed.

Lemma parse_cast_prefix_semi_None ts :
  parse_cast_prefix T ts = None → parse_cast_prefix T (ts ++ [TSemi]) = None.
Proof.
  unfold parse_cast_prefix.
  destruct (parse_type_spec T ts) as [[ty' r']|] eqn:E.
  - rewrite (parse_type_spec_semi _ _ _ E).
    destruct r' as [|t r']; [done|]. by destruct t.
  - by rewrite (parse_type_spec_semi_None _ E).
Qed.

(** Reading stops at a semicolon exactly as it stops at the end of the
    input. *)
Lemma parse_semi (n : nat) :
  (∀ ts e r, parse_unary T n ts = Some (e, r) →
             parse_unary T n (ts ++ [TSemi]) = Some (e, r ++ [TSemi])) ∧
  (∀ min ts rs r, parse_rhs T n min ts = Some (rs, r) →
                  parse_rhs T n min (ts ++ [TSemi]) = Some (rs, r ++ [TSemi])).
Proof.
  induction n as [|n [IHu IHr]]; [done|]. split.
  - intros ts e r. destruct ts as [|t ts]; [done|].
    destruct t; simpl; try done.
    + destruct (T !! s); [done|]. intros [= H]. by rewrite parse_postfix_semi, H.
    + intros [= H]. by rewrite parse_postfix_semi, H.
    + destruct (parse_cast_prefix T ts) as [[ty r1]|] eqn:Ec.
      * rewrite (parse_cast_prefix_semi _ _ _ Ec).
        destruct (parse_unary T n r1) as [[e1 r2]|] eqn:E1; [|done].
        rewrite (IHu _ _ _ E1). simpl. by intros; simplify_eq/=.
      * rewrite (parse_cast_prefix_semi_None _ Ec).
        destruct (parse_unary T n ts) as [[l r1]|] eqn:E1; [|done].
        rewrite (IHu _ _ _ E1). simpl.
        destruct (parse_rhs T n 0 r1) as [[rs r2]|] eqn:E2; [|done].
        rewrite (IHr _ _ _ _ E2). simpl.
        destruct r2 as [|t r2]; [done|]. destruct t; try done. simpl.
        intros [= H]. by rewrite parse_postfix_semi, H.
    + destruct (parse_unary T n ts) as [[e1 r1]|] eqn:E1; [|done].
      rewrite (IHu _ _ _ E1). simpl. by intros; simplify_eq/=.
    + destruct (parse_unary T n ts) as [[e1 r1]|] eqn:E1; [|done].
      rewrite (IHu _ _ _ E1). simpl. by intros; simplify_eq/=.
  - intros min ts rs r. destruct ts as [|t ts]; [by intros; simplify_eq/=|].
    simpl. destruct (binop_of_token t) as [op|]; [|by intros; simplify_eq/=].
    destruct (min <=? prec op)%nat; [|by intros; simplify_eq/=].
    destruct (parse_unary T n ts) as [[l r1]|] eqn:E1; [|done].
    rewrite (IHu _ _ _ E1). simpl.
    destruct (parse_rhs T n (rhs_prec op) r1) as [[rs1 r2]|] eqn:E2; [|done].
    rewrite (IHr _ _ _ _ E2). simpl.
    destruct (parse_rhs T n min r2) as [[more r3]|] eqn:E3; [|done].
    rewrite (IHr _ _ _ _ E3). simpl. by intros; simplify_eq/=.
Qed.

(** One step of each parser, as an equation. *)
Lemma parse_unary_S (n : nat) ts :
  parse_unary T (S n) ts =
    match ts with
    | TIdent x :: r =>
        if T !! x is Some _ then None else Some (parse_postfix (EVar x) r)
    | TNum k :: r => Some (parse_postfix (ELit k) r)
    | TLParen :: r =>
        match parse_cast_prefix T r with
        | Some (ty, r1) => '(e, r2) ← parse_unary T n r1; Some (ECast ty e, r2)
        | None =>
            '(l, r1) ← parse_unary T n r;
            '(rs, r2) ← parse_rhs T n 0 r1;
            match r2 with
            | TRParen :: r3 => Some (parse_postfix (EParen (apply_rhs l rs)) r3)
            | _ => None
            end
        end
    | TMinus :: r => '(e, r1) ← parse_unary T n r; Some (ENeg e, r1)
    | TPlusPlus :: r => '(e, r1) ← parse_unary T n r; Some (EPreInc e, r1)
    | _ => None
    end.
Proof. reflexivity. Qed.

Lemma parse_rhs_S (n min : nat) ts :
  parse_rhs T (S n) min ts =
    match ts with
    | [] => Some ([], [])
    | t :: r =>
        match binop_of_token t with
        | Some op =>
            if (min <=? prec op)%nat then
              '(l, r1) ← parse_unary T n r;
              '(rs, r2) ← parse_rhs T n (rhs_prec op) r1;
              '(more, r3) ← parse_rhs T n min r2;
              Some ((op, apply_rhs l rs) :: more, r3)
            else Some ([], ts)
        | None => Some ([], ts)
        end
    end.
Proof. reflexivity. Qed.

(** More fuel does not change a result. *)
Lemma parse_fuel_S (n : nat) :
  (∀ ts res, parse_unary T n ts = Some res → parse_unary T (S n) ts = Some res) ∧
  (∀ min ts res, parse_rhs T n min ts = Some res → parse_rhs T (S n) min ts = Some res).
Proof.
  induction n as [|n [IHu IHr]]; [done|]. split.
  - intros ts res. rewrite (parse_unary_S n), (parse_unary_S (S n)).
    destruct ts as [|t ts]; [done|]. destruct t; try done.
    + destruct (parse_cast_prefix T ts) as [[ty r1]|].
      * destruct (parse_unary T n r1) as [[e1 r2]|] eqn:E1; [|done].
        by rewrite (IHu _ _ E1).
      * destruct (parse_unary T n ts) as [[l r1]|] eqn:E1; [|done].
        rewrite (IHu _ _ E1). cbn [mbind option_bind].
        destruct (parse_rhs T n 0 r1) as [[rs r2]|] eqn:E2; [|done].
        by rewrite (IHr _ _ _ E2).
    + destruct (parse_unary T n ts) as [[e1 r1]|] eqn:E1; [|done].
      by rewrite (IHu _ _ E1).
    + destruct (parse_unary T n ts) as [[e1 r1]|] eqn:E1; [|done].
      by rewrite (IHu _ _ E1).
  - intros min ts res. rewrite (parse_rhs_S n), (parse_rhs_S (S n)).
    destruct ts as [|t ts]; [done|].
    destruct (binop_of_token t) as [op|]; [|done].
    destruct (min <=? prec op)%nat; [|done].
    destruct (parse_unary T n ts) as [[l r1]|] eqn:E1; [|done].
    rewrite (IHu _ _ E1). cbn [mbind option_bind].
    destruct (parse_rhs T n (rhs_prec op) r1) as [[rs1 r2]|] eqn:E2; [|done].
    rewrite (IHr _ _ _ E2). cbn [mbind option_bind].
    destruct (parse_rhs T n min r2) as [[more r3]|] eqn:E3; [|done].
    by rewrite (IHr _ _ _ E3).
Qed.

(** What is left over is shorter than the input. *)
Lemma parse_postfix_length e ts :
  (length (parse_postfix e ts).2 ≤ length ts)%nat.
Proof.
  revert e. induction ts as [|t ts IH]; intros e; [done|].
  destruct t; simpl; try lia. specialize (IH (EPostInc e)). lia.
Qed.

Lemma parse_cast_prefix_length ts ty r :
  parse_cast_prefix T ts = Some (ty, r) → (length r < length ts)%nat.
Proof.
  unfold parse_cast_prefix, parse_type_spec.
  destruct ts as [|t ts]; [done|].
  destruct t; try done; try (destruct ts as [|[] ts]; try done; intros [= <- <-]; simpl; lia).
  - destruct (T !! s); [|done].
    destruct ts as [|[] ts]; try done. intros [= <- <-]. simpl. lia.
  - destruct ts as [|[] ts]; try done.
    destruct ts as [|[] ts]; try done. intros [= <- <-]. simpl. lia.
Qed.

Lemma parse_length (n : nat) :
  (∀ ts e r, parse_unary T n ts = Some (e, r) → (length r < length ts)%nat) ∧
  (∀ min ts rs r, parse_rhs T n min ts = Some (rs, r) → (length r ≤ length ts)%nat).
Proof.
  induction n as [|n [IHu IHr]]; [done|]. split.
  - intros ts e r. rewrite parse_unary_S.
    destruct ts as [|t ts]; [done|].
    destruct t; try done.
    + destruct (T !! s); [done|]. intros [= H].
      pose proof (parse_postfix_length (EVar s) ts) as Hl.
      rewrite H in Hl. simpl in *. lia.
    + intros [= H].
      pose proof (parse_postfix_length (ELit n0) ts) as Hl.
      rewrite H in Hl. simpl in *. lia.
    + destruct (parse_cast_prefix T ts) as [[ty r1]|] eqn:Ec.
      * apply parse_cast_prefix_length in Ec.
        destruct (parse_unary T n r1) as [[e1 r2]|] eqn:E1; [|done].
        apply IHu in E1. intros [= <- <-]. simpl. lia.
      * destruct (parse_unary T n ts) as [[l r1]|] eqn:E1; [|done].
        apply IHu in E1. cbn [mbind option_bind].
        destruct (parse_rhs T n 0 r1) as [[rs r2]|] eqn:E2; [|done].
        apply IHr in E2. cbn [mbind option_bind].
        destruct r2 as [|[] r2]; try done. intros [= H].
        pose proof (parse_postfix_length (EParen (apply_rhs l rs)) r2) as Hl.
        rewrite H in Hl. simpl in *. lia.
    + destruct (parse_unary T n ts) as [[e1 r1]|] eqn:E1; [|done].
      apply IHu in E1. intros [= <- <-]. simpl. lia.
    + destruct (parse_unary T n ts) as [[e1 r1]|] eqn:E1; [|done].
      apply IHu in E1. intros [= <- <-]. simpl. lia.
  - intros min ts rs r. rewrite parse_rhs_S.
    destruct ts as [|t ts]; [by intros [= <- <-]|].
    destruct (binop_of_token t) as [op|]; [|by intros [= <- <-]].
    destruct (min <=? prec op)%nat; [|by intros [= <- <-]].
    destruct (parse_unary T n ts) as [[l r1]|] eqn:E1; [|done].
    apply IHu in E1. cbn [mbind option_bind].
    destruct (parse_rhs T n (rhs_prec op) r1) as [[rs1 r2]|] eqn:E2; [|done].
    apply IHr in E2. cbn [mbind option_bind].
    destruct (parse_rhs T n min r2) as [[more r3]|] eqn:E3; [|done].
    apply IHr in E3. intros [= <- <-]. simpl. lia.
Qed.

(** Fuel above the length of the input is enough: what any amount of
    fuel reads is read with that much. *)
Lemma parse_fuel_enough (n : nat) :
  (∀ m ts res, parse_unary T m ts = Some res → (length ts < n)%nat →
               parse_unary T n ts = Some res) ∧
  (∀ m min ts res, parse_rhs T m min ts = Some res → (length ts < n)%nat →
                   parse_rhs T n min ts = Some res).
Proof.
  induction n as [|n [IHu IHr]]; [split; intros; lia|]. split.
  - intros [|m] ts res; [done|]. rewrite (parse_unary_S m), (parse_unary_S n).
    destruct ts as [|t ts]; [done|]. destruct t; try done; simpl length.
    + destruct (parse_cast_prefix T ts) as [[ty r1]|] eqn:Ec.
      * apply parse_cast_prefix_length in Ec.
        destruct (parse_unary T m r1) as [[e1 r2]|] eqn:E1; [|done].
        intros H Hn. rewrite (IHu _ _ _ E1); [done|lia].
      * destruct (parse_unary T m ts) as [[l r1]|] eqn:E1; [|done].
        cbn [mbind option_bind].
        destruct (parse_rhs T m 0 r1) as [[rs r2]|] eqn:E2; [|done].
        intros H Hn. rewrite (IHu _ _ _ E1) by lia. cbn [mbind option_bind].
        apply (proj1 (parse_length m)) in E1.
        rewrite (IHr _ _ _ _ E2) by lia. done.
    + destruct (parse_unary T m ts) as [[e1 r1]|] eqn:E1; [|done].
      intros H Hn. rewrite (IHu _ _ _ E1); [done|lia].
    + destruct (parse_unary T m ts) as [[e1 r1]|] eqn:E1; [|done].
      intros H Hn. rewrite (IHu _ _ _ E1); [done|lia].
  - intros [|m] min ts res; [done|]. rewrite (parse_rhs_S m), (parse_rhs_S n).
    destruct ts as [|t ts]; [done|]. simpl length.
    destruct (binop_of_token t) as [op|]; [|done].
    destruct (min <=? prec op)%nat; [|done].
    destruct (parse_unary T m ts) as [[l r1]|] eqn:E1; [|done].
    cbn [mbind option_bind].
    destruct (parse_rhs T m (rhs_prec op) r1) as [[rs1 r2]|] eqn:E2; [|done].
    cbn [mbind option_bind].
    destruct (parse_rhs T m min r2) as [[more r3]|] eqn:E3; [|done].
    intros H Hn. rewrite (IHu _ _ _ E1) by lia. cbn [mbind option_bind].
    apply (proj1 (parse_length m)) in E1.
    rewrite (IHr _ _ _ _ E2) by lia. cbn [mbind option_bind].
    apply (proj2 (parse_length m)) in E2.
    rewrite (IHr _ _ _ _ E3) by lia. done.
Qed.

(** So the parsers that take a whole input never fail for want of fuel. *)
Lemma parse_binary_fuel_enough (m min : nat) ts res :
  parse_binary T m min ts = Some res →
  parse_binary T (S (length ts)) min ts = Some res.
Proof.
  unfold parse_binary.
  destruct (parse_unary T m ts) as [[l r1]|] eqn:E1; [|done].
  cbn [mbind option_bind].
  destruct (parse_rhs T m min r1) as [[rs r2]|] eqn:E2; [|done].
  intros H.
  rewrite (proj1 (parse_fuel_enough _) _ _ _ E1) by lia.
  cbn [mbind option_bind].
  apply (proj1 (parse_length m)) in E1.
  rewrite (proj2 (parse_fuel_enough _) _ _ _ _ E2) by lia. done.
Qed.

End Parser.

Lemma parse_unary_fuel T (n m : nat) ts res :
  (n ≤ m)%nat → parse_unary T n ts = Some res → parse_unary T m ts = Some res.
Proof.
  induction 1 as [|m _ IH]; [done|]. intros H. by apply parse_fuel_S, IH.
Qed.

Lemma parse_rhs_fuel T (n m : nat) min ts res :
  (n ≤ m)%nat → parse_rhs T n min ts = Some res → parse_rhs T m min ts = Some res.
Proof.
  induction 1 as [|m _ IH]; [done|]. intros H. by apply parse_fuel_S, IH.
Qed.

(** The operators read at strength [min] have at least that strength. *)
Lemma parse_rhs_first T (n min : nat) ts op e rs r :
  parse_rhs T n min ts = Some ((op, e) :: rs, r) → (min ≤ prec op)%nat.
Proof.
  destruct n as [|n]; [done|]. destruct ts as [|t ts]; [done|]. simpl.
  destruct (binop_of_token t) as [op'|]; [|done].
  destruct (min <=? prec op')%nat eqn:E; [|done].
  destruct (parse_unary T n ts) as [[l r1]|]; [|done]. simpl.
  destruct (parse_rhs T n (rhs_prec op') r1) as [[rs1 r2]|]; [|done]. simpl.
  destruct (parse_rhs T n min r2) as [[more r3]|]; [|done]. simpl.
  intros [= <- _ _ _]. by apply Nat.leb_le.
Qed.

(** An assignment-expression that is not followed by a comma is the
    expression that is read there. *)
Lemma parse_rhs_expression T (n : nat) ts rs r :
  parse_rhs T n 1 ts = Some (rs, r) →
  head r ≠ Some TComma →
  parse_rhs T n 0 ts = Some (rs, r).
Proof.
  revert ts rs r. induction n as [|n IH]; [done|]. intros ts rs r.
  destruct ts as [|t ts]; [done|]. cbn [parse_rhs].
  destruct (binop_of_token t) as [op|] eqn:Et; [|done].
  destruct (decide (op = Comma)) as [->|Hop].
  { simpl. intros [= <- <-] Hr. by destruct t. }
  replace (1 <=? prec op)%nat with true by by destruct op.
  replace (0 <=? prec op)%nat with true by by destruct op.
  destruct (parse_unary T n ts) as [[l r1]|]; [|done]. simpl.
  destruct (parse_rhs T n (rhs_prec op) r1) as [[rs1 r2]|]; [|done]. simpl.
  destruct (parse_rhs T n 1 r2) as [[more r3]|] eqn:E3; [|done]. simpl.
  intros [= <- <-] Hr. by rewrite (IH _ _ _ E3 Hr).
Qed.

(** ** Typing of what the parser builds *)

Lemma typeof_EBin_None p T Γ op l r :
  typeof p T Γ l = None → typeof p T Γ (EBin op l r) = None.
Proof. intros H. destruct op; simpl; by rewrite H. Qed.

Lemma typeof_apply_rhs_None p T Γ l rs :
  typeof p T Γ l = None → typeof p T Γ (apply_rhs l rs) = None.
Proof.
  revert l. induction rs as [|[op r] rs IH]; intros l H; [done|].
  apply IH. by apply typeof_EBin_None.
Qed.

(** Only the comma operator takes a left operand of type [void]. *)
Lemma typeof_EBin_void p T Γ op l r lv :
  typeof p T Γ l = Some (CVoid, lv) → op ≠ Comma →
  typeof p T Γ (EBin op l r) = None.
Proof.
  intros H Hop.
  destruct op; try done; simpl; rewrite H; simpl;
    destruct (typeof p T Γ r) as [[tr lr]|]; simpl; try done.
  by destruct lv.
Qed.

Lemma typeof_ECast_void p T Γ e :
  typeof p T Γ (ECast CVoid e) = typeof p T Γ e ≫= λ _, Some (CVoid, false).
Proof. simpl. by destruct (typeof p T Γ e) as [[t lv]|]. Qed.

(** ** What [UNUSED] compiles to *)

(** How the tokens of [UNUSED] are read when the argument is an
    assignment-expression: the cast to [void] lands on the first
    cast-expression [l] of the argument, and the operators [rs] that
    follow it outside parentheses are applied to that cast. *)
Lemma UNUSED_parse T (arg : list token) (l : expr) (r1 : list token) rs :
  parse_unary T (S (length arg)) arg = Some (l, r1) →
  parse_rhs T (S (length arg)) 1 r1 = Some (rs, []) →
  parse_stmt T (TLParen :: TVoid :: TRParen :: arg ++ [TSemi]) =
    Some (SExpr (apply_rhs (ECast CVoid l) rs), []).
Proof.
  intros E1 E2. unfold parse_stmt. cbn [parse_type_spec].
  remember (length (TLParen :: TVoid :: TRParen :: arg ++ [TSemi])) as n eqn:En.
  assert (Hn : (S (length arg) ≤ n)%nat).
  { subst n. cbn [length]. rewrite length_app. simpl. lia. }
  clear En.
  assert (Hu : parse_unary T (S n) (TLParen :: TVoid :: TRParen :: arg ++ [TSemi])
               = Some (ECast CVoid l, r1 ++ [TSemi])).
  { simpl. apply (proj1 (parse_semi T _)) in E1.
    by rewrite (parse_unary_fuel _ _ n _ _ Hn E1). }
  assert (Hr : parse_rhs T (S n) 0 (r1 ++ [TSemi]) = Some (rs, [TSemi])).
  { apply (proj2 (parse_semi T _)) in E2.
    apply parse_rhs_expression; [|done].
    eapply parse_rhs_fuel; [|exact E2]. lia. }
  unfold parse_binary. rewrite Hu. cbn [mbind option_bind]. by rewrite Hr.
Qed.

(** With an operator outside parentheses the tokens do not compile: the
    operator gets an operand of type [void]. *)
Lemma typeof_void_operand p T Γ l op r rs :
  (1 ≤ prec op)%nat →
  typeof p T Γ (apply_rhs (ECast CVoid l) ((op, r) :: rs)) = None.
Proof.
  intros Hop.
  change (apply_rhs (ECast CVoid l) ((op, r) :: rs))
    with (apply_rhs (EBin op (ECast CVoid l) r) rs).
  apply typeof_apply_rhs_None.
  pose proof (typeof_ECast_void p T Γ l) as Ec.
  destruct (typeof p T Γ l) as [[t lv]|].
  - apply (typeof_EBin_void _ _ _ _ _ _ false Ec).
    intros ->. simpl in Hop. lia.
  - by apply typeof_EBin_None.
Qed.

(** The statement that the tokens of [UNUSED] are compiled to, when they
    compile and the argument is an assignment-expression [x]: the cast of
    all of [x] to [void]. *)
Lemma UNUSED_statement p T Γ (arg : list token) (x : expr) (s : stmt) :
  parse_assignment_expression T arg = Some x →
  compile_stmt p T Γ (TLParen :: TVoid :: TRParen :: arg ++ [TSemi]) = Some s →
  s = SExpr (ECast CVoid x).
Proof.
  unfold parse_assignment_expression, parse_binary, compile_stmt.
  destruct (parse_unary T (S (length arg)) arg) as [[l r1]|] eqn:E1; [|done].
  cbn [mbind option_bind].
  destruct (parse_rhs T (S (length arg)) 1 r1) as [[rs r2]|] eqn:E2; [|done].
  cbn [mbind option_bind].
  destruct r2; [|done]. intros [= <-].
  rewrite (UNUSED_parse _ _ _ _ _ E1 E2). cbn [check_stmt].
  destruct rs as [|[op r] rs].
  - destruct (typeof p T Γ (apply_rhs (ECast CVoid l) [])); by intros [= <-].
  - apply parse_rhs_first in E2. by rewrite typeof_void_operand.
Qed.

(** The discarding cast runs its operand and nothing else. *)
Lemma exec_discard p T (x : expr) (st : state) :
  exec p T (SExpr (ECast CVoid x)) st = state_after p T x st.
Proof.
  unfold state_after. simpl.
  by destruct (eval p T x st) as [[r st1]|].
Qed.

(** ** The export macro *)

(** C2.  [TTVSDK_API] by the command line [D].  On a platform that does
    not define the flag [TTV_PLATFORM_MAC], the header preprocesses and
    [TTVSDK_API] expands to the empty token sequence.  Where the flag is
    set, that is defined as a number [n] ([-DTTV_PLATFORM_MAC] alone
    defines it as [1]), the header preprocesses and [TTVSDK_API] expands
    to the default-visibility attribute, unless [n] reads as zero in the
    widest integer type, where it expands to the empty sequence again.  A
    flag defined as a function-like macro counts as not set.  And on every
    command line with which the header preprocesses at all, [TTVSDK_API]
    is one of the two. *)
Theorem TTVSDK_API_by_platform (D : gmap string macro) :
  (D !! "TTV_PLATFORM_MAC" = None →
     ∃ M T, translation_unit D = Some (M, T) ∧ TTVSDK_API M = Some []) ∧
  (∀ n, D !! "TTV_PLATFORM_MAC" = Some (MObject [TNum n]) →
     ∃ M T, translation_unit D = Some (M, T) ∧
       TTVSDK_API M =
         Some (if n mod 2 ^ intmax_bits =? 0 then [] else visibility_default)) ∧
  (∀ ps body, D !! "TTV_PLATFORM_MAC" = Some (MFunction ps body) →
     ∃ M T, translation_unit D = Some (M, T) ∧ TTVSDK_API M = Some []) ∧
  (∀ M T, translation_unit D = Some (M, T) →
     TTVSDK_API M = Some [] ∨ TTVSDK_API M = Some visibility_default).
Proof.
  split_and!.
  - intros H. exact (TTVSDK_API_by_value D 0 (TTV_PLATFORM_MAC_undefined D H)).
  - intros n H. rewrite <- pp_value_literal_zero.
    exact (TTVSDK_API_by_value D _ (TTV_PLATFORM_MAC_number D n H)).
  - intros ps body H.
    exact (TTVSDK_API_by_value D 0 (TTV_PLATFORM_MAC_function D ps body H)).
  - intros M T Htu. destruct (TTV_PLATFORM_MAC D) as [v|] eqn:Ev.
    + destruct (TTVSDK_API_by_value D v Ev) as (M' & T' & Htu' & HA).
      rewrite Htu in Htu'. injection Htu' as <- <-. rewrite HA.
      destruct (v =? 0); [by left|by right].
    + rewrite translation_unit_eq, Ev in Htu. discriminate Htu.
Qed.

Lemma TTVSDK_API_by_platform_witness :
  (∃ M T, translation_unit ∅ = Some (M, T) ∧ TTVSDK_API M = Some []) ∧
  (∃ M T, translation_unit {["TTV_PLATFORM_MAC" := MObject [TNum 1]]} = Some (M, T) ∧
     TTVSDK_API M = Some visibility_default) ∧
  (∃ M T, translation_unit {["TTV_PLATFORM_MAC" := MObject [TNum 0]]} = Some (M, T) ∧
     TTVSDK_API M = Some []).
Proof.
  split_and!.
  - apply (proj1 (TTVSDK_API_by_platform ∅)). reflexivity.
  - apply (proj1 (proj2
             (TTVSDK_API_by_platform {["TTV_PLATFORM_MAC" := MObject [TNum 1]]})) 1).
    reflexivity.
  - apply (proj1 (proj2
             (TTVSDK_API_by_platform {["TTV_PLATFORM_MAC" := MObject [TNum 0]]})) 0).
    reflexivity.
Defined.

(** ** The aliases *)

Lemma resolve_utf8char (D : gmap string macro) M T :
  translation_unit D = Some (M, T) → resolve T utf8char = Some CChar.
Proof.
  intros (_ & _ & ->)%translation_unit_inv.
  unfold resolve, utf8char. by rewrite header_typedefs_lookup.
Qed.

Lemma resolve_uint (D : gmap string macro) M T :
  translation_unit D = Some (M, T) → resolve T uint = Some CUInt.
Proof.
  intros (_ & _ & ->)%translation_unit_inv.
  unfold resolve, uint. by rewrite header_typedefs_lookup.
Qed.

(** C3.  In a translation unit that includes the header, [utf8char] is
    [char]: its size is that of [char], one byte, and its values are those
    of [char].  With bytes of 8 bits, every bit pattern [b] of a byte is
    the representation of a value of [utf8char] (nothing is checked for
    being UTF-8), and storing that value gives [b] back. *)
Theorem utf8char_is_one_byte (p : platform) (D : gmap string macro) M T :
  translation_unit D = Some (M, T) →
  char_bits p = 8 →
  resolve T utf8char = Some CChar ∧
  sizeof_type p T utf8char = Some 1 ∧
  sizeof_type p T utf8char = sizeof p CChar ∧
  (∀ v, is_value p T utf8char v = in_range p CChar v) ∧
  (∀ b, 0 ≤ b < 256 →
     ∃ v, decode_type p T utf8char b = Some v ∧
          is_value p T utf8char v = true ∧
          encode_type p T utf8char v = Some b).
Proof.
  intros Htu H8. pose proof (resolve_utf8char _ _ _ Htu) as Hr.
  unfold sizeof_type, is_value, decode_type, encode_type. rewrite Hr.
  cbn [mbind option_bind]. unfold sizeof, decode, encode, in_range, type_range.
  cbn [type_bits type_signed mbind option_bind]. rewrite H8.
  split_and!; try done.
  intros b Hb. eexists. split; [done|].
  destruct (char_signed p); cbn [andb].
  - change (2 ^ (8 - 1)) with 128. change (2 ^ 8) with 256.
    destruct (Z.leb_spec 128 b).
    + split; [apply andb_true_intro; split; [apply Z.leb_le|apply Z.ltb_lt]; lia|].
      f_equal. rewrite <- (Z.mod_unique (b - 256) 256 (-1) b); lia.
    + split; [apply andb_true_intro; split; [apply Z.leb_le|apply Z.ltb_lt]; lia|].
      f_equal. apply Z.mod_small. lia.
  - change (2 ^ 8) with 256.
    split; [apply andb_true_intro; split; [apply Z.leb_le|apply Z.ltb_lt]; lia|].
    f_equal. apply Z.mod_small. lia.
Qed.

Lemma utf8char_is_one_byte_witness :
  resolve header_typedefs utf8char = Some CChar ∧
  sizeof_type (Platform 8 true 32) header_typedefs utf8char = Some 1.
Proof.
  assert (Htu : translation_unit ∅ = Some (header_macros, header_typedefs))
    by reflexivity.
  pose proof (utf8char_is_one_byte (Platform 8 true 32) ∅
                header_macros header_typedefs Htu eq_refl) as (H1 & H2 & _).
  exact (conj H1 H2).
Defined.

(** C4.  [uint] is [unsigned int]: its values are exactly the integers
    [v] with [0 <= v < 2 ^ w], for [w] the width of [unsigned int] on the
    platform. *)
Theorem uint_values (p : platform) (D : gmap string macro) M T :
  translation_unit D = Some (M, T) →
  resolve T uint = Some CUInt ∧
  ∀ v, is_value p T uint v = true ↔ 0 ≤ v < 2 ^ int_bits p.
Proof.
  intros Htu. pose proof (resolve_uint _ _ _ Htu) as Hr.
  split; [done|]. intros v. unfold is_value. rewrite Hr.
  unfold in_range, type_range. cbn [type_bits type_signed mbind option_bind].
  rewrite andb_true_iff, Z.leb_le, Z.ltb_lt. done.
Qed.

Lemma uint_values_witness :
  is_value (Platform 8 true 32) header_typedefs uint 4294967295 = true.
Proof.
  apply (uint_values (Platform 8 true 32) ∅ header_macros header_typedefs);
    [reflexivity|].
  simpl. lia.
Defined.

(** C9.  [utf8char] is plain [char], whose signedness is the platform's.
    Where [char] is signed, a byte with its high bit set (0x80 to 0xFF for
    bytes of 8 bits) is read as a negative value; where it is unsigned,
    the same byte is read as itself. *)
Theorem utf8char_high_bit_negative (p : platform) (D : gmap string macro) M T :
  translation_unit D = Some (M, T) →
  resolve T utf8char = Some CChar ∧
  (char_signed p = true →
   ∀ b, 2 ^ (char_bits p - 1) ≤ b < 2 ^ char_bits p →
     ∃ v, decode_type p T utf8char b = Some v ∧ v < 0) ∧
  (char_signed p = false →
   ∀ b, decode_type p T utf8char b = Some b).
Proof.
  intros Htu. pose proof (resolve_utf8char _ _ _ Htu) as Hr.
  split; [done|]. unfold decode_type. rewrite Hr.
  cbn [mbind option_bind]. unfold decode. cbn [type_bits type_signed mbind option_bind].
  split; intros Hs; rewrite Hs; intros b; [intros Hb|done].
  eexists. split; [done|]. cbn [andb].
  rewrite (proj2 (Z.leb_le _ _)) by lia. lia.
Qed.

Lemma utf8char_high_bit_negative_witness :
  ∃ v, decode_type (Platform 8 true 32) header_typedefs utf8char 195 = Some v ∧ v < 0.
Proof.
  apply (utf8char_high_bit_negative (Platform 8 true 32) ∅
           header_macros header_typedefs); [reflexivity..|].
  simpl. lia.
Defined.

Lemma convert_uint_id (p : platform) (v : Z) :
  in_range p CUInt v = true → convert p CUInt v = v.
Proof.
  unfold in_range, type_range, convert.
  cbn [type_bits type_signed mbind option_bind].
  rewrite andb_true_iff, Z.leb_le, Z.ltb_lt. intros Hv.
  by apply Z.mod_small.
Qed.

Lemma eval_uint_operands (p : platform) T st (x y : string) (a b : Z) (op : binop) :
  st_types st !! x = Some CUInt → st_types st !! y = Some CUInt →
  st_store st !! x = Some a → st_store st !! y = Some b →
  in_range p CUInt a = true → in_range p CUInt b = true →
  op ≠ Assign → op ≠ Comma →
  eval p T (EBin op (EVar x) (EVar y)) st =
    v ← arith p CUInt op a b; Some (RVal CUInt v, st).
Proof.
  intros Hx Hy Ha Hb Ra Rb Hop1 Hop2.
  destruct op; try done; simpl;
    repeat (first [rewrite Hx | rewrite Hy | rewrite Ha | rewrite Hb]; simpl);
    by rewrite !convert_uint_id.
Qed.

(** C10.  Arithmetic on [uint] is modular.  For variables [x] and [y] of
    type [uint] that hold [a] and [b], the sum, the difference and the
    product evaluate, in every state, to the exact result reduced modulo
    [2 ^ w] ([w] the width of [unsigned int]): the evaluation never fails,
    changes nothing, and its result is again a value of [uint]. *)
Theorem uint_arithmetic_modular (p : platform) (D : gmap string macro) M T
    (st : state) (x y : string) (a b : Z) :
  translation_unit D = Some (M, T) →
  st_types st !! x = resolve T uint →
  st_types st !! y = resolve T uint →
  st_store st !! x = Some a →
  st_store st !! y = Some b →
  is_value p T uint a = true →
  is_value p T uint b = true →
  eval p T (EBin Add (EVar x) (EVar y)) st
    = Some (RVal CUInt ((a + b) mod 2 ^ int_bits p), st) ∧
  eval p T (EBin Sub (EVar x) (EVar y)) st
    = Some (RVal CUInt ((a - b) mod 2 ^ int_bits p), st) ∧
  eval p T (EBin Mul (EVar x) (EVar y)) st
    = Some (RVal CUInt ((a * b) mod 2 ^ int_bits p), st) ∧
  ∀ r, is_value p T uint (r mod 2 ^ int_bits p) = true.
Proof.
  intros Htu. unfold is_value. rewrite (resolve_uint _ _ _ Htu).
  intros Hx Hy Ha Hb Ra Rb.
  split_and!; try (by rewrite (eval_uint_operands p T st x y a b)).
  intros r. revert Ra. unfold in_range, type_range.
  cbn [type_bits type_signed mbind option_bind].
  rewrite !andb_true_iff, !Z.leb_le, !Z.ltb_lt. intros Ra.
  apply Z.mod_pos_bound. lia.
Qed.

Lemma uint_arithmetic_modular_witness :
  eval (Platform 8 true 32) header_typedefs (EBin Add (EVar "a") (EVar "b"))
    (State {["a" := CUInt; "b" := CUInt]} {["a" := 4294967295; "b" := 1]} [])
  = Some (RVal CUInt ((4294967295 + 1) mod 2 ^ 32),
          State {["a" := CUInt; "b" := CUInt]} {["a" := 4294967295; "b" := 1]} []).
Proof.
  apply (uint_arithmetic_modular (Platform 8 true 32) ∅ header_macros header_typedefs
           (State {["a" := CUInt; "b" := CUInt]} {["a" := 4294967295; "b" := 1]} [])
           "a" "b" 4294967295 1); reflexivity.
Defined.

(** ** The unused-value macro *)

(** C8.  [UNUSED(x)] evaluates its argument exactly once.  For an argument
    that is an assignment-expression [x], whenever the tokens [UNUSED]
    leaves compile to a statement, running that statement from any state
    gives exactly the state that evaluating [x] once gives (its writes, in
    their order, included), and fails exactly when [x] fails. *)
Theorem UNUSED_evaluates_argument_once (p : platform) (D : gmap string macro) M Th
    (T Γ : gmap string ctype) (arg ts : list token) (x : expr) (s : stmt) (st : state) :
  translation_unit D = Some (M, Th) →
  parse_assignment_expression T arg = Some x →
  UNUSED M arg = Some ts →
  compile_stmt p T Γ ts = Some s →
  exec p T s st = state_after p T x st.
Proof.
  intros Htu Hx Hts Hs.
  rewrite (UNUSED_tokens _ _ _ arg Htu) in Hts. injection Hts as <-.
  rewrite (UNUSED_statement _ _ _ _ _ _ Hx Hs).
  apply exec_discard.
Qed.

Lemma UNUSED_evaluates_argument_once_witness :
  exec (Platform 8 true 32) header_typedefs
    (SExpr (ECast CVoid (EPostInc (EVar "i"))))
    (State {["i" := CInt]} {["i" := 41]} [])
  = state_after (Platform 8 true 32) header_typedefs (EPostInc (EVar "i"))
      (State {["i" := CInt]} {["i" := 41]} []).
Proof.
  apply (UNUSED_evaluates_argument_once (Platform 8 true 32) ∅
           header_macros header_typedefs header_typedefs {["i" := CInt]}
           [TIdent "i"; TPlusPlus]
           [TLParen; TVoid; TRParen; TIdent "i"; TPlusPlus; TSemi]);
    reflexivity.
Defined.

(** C5.  [UNUSED] does not succeed on every value.  With [int a = 1] and
    [int b = 2] in scope the argument [a + b] is a well-typed expression
    that evaluates to [3] without touching the state, but the parameter
    is not parenthesised in the replacement list: [UNUSED(a + b)] is
    [(void)a + b;], the cast takes [a] alone, the sum is left with an
    operand of type [void], and the statement does not compile. *)
Theorem UNUSED_fails_on_sum :
  translation_unit ∅ = Some (header_macros, header_typedefs) ∧
  parse_assignment_expression header_typedefs [TIdent "a"; TPlus; TIdent "b"]
    = Some (EBin Add (EVar "a") (EVar "b")) ∧
  typeof (Platform 8 true 32) header_typedefs {["a" := CInt; "b" := CInt]}
    (EBin Add (EVar "a") (EVar "b")) = Some (CInt, false) ∧
  eval (Platform 8 true 32) header_typedefs (EBin Add (EVar "a") (EVar "b"))
    (State {["a" := CInt; "b" := CInt]} {["a" := 1; "b" := 2]} [])
    = Some (RVal CInt 3, State {["a" := CInt; "b" := CInt]} {["a" := 1; "b" := 2]} []) ∧
  UNUSED header_macros [TIdent "a"; TPlus; TIdent "b"]
    = Some [TLParen; TVoid; TRParen; TIdent "a"; TPlus; TIdent "b"; TSemi] ∧
  parse_stmt header_typedefs
      [TLParen; TVoid; TRParen; TIdent "a"; TPlus; TIdent "b"; TSemi]
    = Some (SExpr (EBin Add (ECast CVoid (EVar "a")) (EVar "b")), []) ∧
  compile_stmt (Platform 8 true 32) header_typedefs {["a" := CInt; "b" := CInt]}
      [TLParen; TVoid; TRParen; TIdent "a"; TPlus; TIdent "b"; TSemi]
    = None.
Proof. split_and!; reflexivity. Qed.

(** ** Which arguments [UNUSED] accepts *)

Lemma parse_postfix_not_binary e ts :
  is_binary e = false → is_binary (parse_postfix e ts).1 = false.
Proof.
  revert e. induction ts as [|t ts IH]; intros e He; [done|].
  destruct t; try done. by apply IH.
Qed.

(** A cast-expression is not a binary operation. *)
Lemma parse_unary_not_binary T (n : nat) ts e r :
  parse_unary T n ts = Some (e, r) → is_binary e = false.
Proof.
  destruct n as [|n]; [done|]. rewrite parse_unary_S.
  destruct ts as [|t ts]; [done|]. destruct t; try done.
  - destruct (T !! s); [done|]. intros [= H].
    pose proof (parse_postfix_not_binary (EVar s) ts eq_refl) as Hb.
    by rewrite H in Hb.
  - intros [= H].
    pose proof (parse_postfix_not_binary (ELit n0) ts eq_refl) as Hb.
    by rewrite H in Hb.
  - destruct (parse_cast_prefix T ts) as [[ty r1]|].
    + destruct (parse_unary T n r1) as [[e1 r2]|]; [|done]. by intros [= <- <-].
    + destruct (parse_unary T n ts) as [[l r1]|]; [|done]. cbn [mbind option_bind].
      destruct (parse_rhs T n 0 r1) as [[rs r2]|]; [|done]. cbn [mbind option_bind].
      destruct r2 as [|[] r2]; try done. intros [= H].
      pose proof (parse_postfix_not_binary (EParen (apply_rhs l rs)) r2 eq_refl) as Hb.
      by rewrite H in Hb.
  - destruct (parse_unary T n ts) as [[e1 r1]|]; [|done]. by intros [= <- <-].
  - destruct (parse_unary T n ts) as [[e1 r1]|]; [|done]. by intros [= <- <-].
Qed.

Lemma apply_rhs_binary l rs :
  is_binary l = true → is_binary (apply_rhs l rs) = true.
Proof.
  revert l. induction rs as [|[op r] rs IH]; intros l Hl; [done|]. by apply IH.
Qed.

(** X1.  The arguments that [UNUSED] accepts.  For an argument that is an
    assignment-expression [x], the tokens [UNUSED] leaves compile exactly
    when [x] is well-typed and is not a binary operation outside
    parentheses: the parameter is not parenthesised in the replacement
    list, so the cast takes the first operand only and the operator is
    left with an operand of type [void]. *)
Theorem UNUSED_compiles_iff (p : platform) (D : gmap string macro) M Th
    (T Γ : gmap string ctype) (arg ts : list token) (x : expr) :
  translation_unit D = Some (M, Th) →
  parse_assignment_expression T arg = Some x →
  UNUSED M arg = Some ts →
  is_Some (compile_stmt p T Γ ts) ↔
    is_binary x = false ∧ is_Some (typeof p T Γ x).
Proof.
  intros Htu Hx Hts.
  rewrite (UNUSED_tokens _ _ _ arg Htu) in Hts. injection Hts as <-.
  revert Hx. unfold parse_assignment_expression, parse_binary, compile_stmt.
  destruct (parse_unary T (S (length arg)) arg) as [[l r1]|] eqn:E1; [|done].
  cbn [mbind option_bind].
  destruct (parse_rhs T (S (length arg)) 1 r1) as [[rs r2]|] eqn:E2; [|done].
  cbn [mbind option_bind].
  destruct r2; [|done]. intros [= <-].
  rewrite (UNUSED_parse _ _ _ _ _ E1 E2). cbn [check_stmt].
  destruct rs as [|[op r] rs].
  - change (apply_rhs (ECast CVoid l) []) with (ECast CVoid l).
    change (apply_rhs l []) with l.
    rewrite typeof_ECast_void, (parse_unary_not_binary _ _ _ _ _ E1).
    destruct (typeof p T Γ l) as [[t lv]|]; simpl.
    + split; [by eauto|by eexists].
    + split; [by intros [? ?]|by intros [_ [? ?]]].
  - apply parse_rhs_first in E2. rewrite typeof_void_operand by done. simpl.
    rewrite (apply_rhs_binary (EBin op l r) rs eq_refl).
    split; [by intros [? ?]|by intros [? _]].
Qed.

Lemma UNUSED_compiles_iff_witness :
  ¬ is_Some (compile_stmt (Platform 8 true 32) header_typedefs
               {["a" := CInt; "b" := CInt]}
               [TLParen; TVoid; TRParen; TIdent "a"; TPlus; TIdent "b"; TSemi]).
Proof.
  intros H.
  apply (UNUSED_compiles_iff (Platform 8 true 32) ∅ header_macros header_typedefs
           header_typedefs {["a" := CInt; "b" := CInt]}
           [TIdent "a"; TPlus; TIdent "b"]
           [TLParen; TVoid; TRParen; TIdent "a"; TPlus; TIdent "b"; TSemi]
           (EBin Add (EVar "a") (EVar "b"))) in H; [|reflexivity..].
  destruct H as [H _]. discriminate H.
Defined.

(** X2.  Written with a semicolon after it, as a call would be, [UNUSED(v);]
    is two statements: the discarding cast and an empty statement. *)
Theorem UNUSED_with_semicolon (D : gmap string macro) M Th
    (T : gmap string ctype) (v : string) (ts : list token) :
  translation_unit D = Some (M, Th) →
  T !! v = None →
  UNUSED M [TIdent v] = Some ts →
  parse_stmts T (length (ts ++ [TSemi])) (ts ++ [TSemi])
    = Some [SExpr (ECast CVoid (EVar v)); SEmpty].
Proof.
  intros Htu HT Hts.
  rewrite (UNUSED_tokens _ _ _ _ Htu) in Hts. injection Hts as <-.
  simpl. unfold parse_binary. simpl. rewrite HT. reflexivity.
Qed.

Lemma UNUSED_with_semicolon_witness :
  parse_stmts header_typedefs 6 [TLParen; TVoid; TRParen; TIdent "v"; TSemi; TSemi]
    = Some [SExpr (ECast CVoid (EVar "v")); SEmpty].
Proof.
  apply (UNUSED_with_semicolon ∅ header_macros header_typedefs header_typedefs "v"
           [TLParen; TVoid; TRParen; TIdent "v"; TSemi]); reflexivity.
Defined.

Lemma parse_type_spec_tokens T (ty cty : ctype) (r : list token) :
  resolve T ty = Some cty →
  parse_type_spec T (type_tokens ty ++ r) = Some (ty, r).
Proof.
  destruct ty; try done. simpl. by intros ->.
Qed.

Lemma parse_stmt_declaration T (ty cty : ctype) (v : string) (r : list token) :
  resolve T ty = Some cty →
  parse_stmt T (type_tokens ty ++ TIdent v :: TSemi :: r) = Some (SDecl ty v None, r).
Proof.
  intros Hty. unfold parse_stmt.
  rewrite (parse_type_spec_tokens _ _ _ _ Hty). by destruct ty.
Qed.

Lemma parse_stmt_UNUSED_variable T (v : string) (r : list token) :
  T !! v = None →
  parse_stmt T (TLParen :: TVoid :: TRParen :: TIdent v :: TSemi :: r)
    = Some (SExpr (ECast CVoid (EVar v)), r).
Proof.
  intros HT. unfold parse_stmt, parse_binary. simpl. by rewrite HT.
Qed.

Lemma parse_stmts_cons T (n : nat) ts s r :
  parse_stmt T ts = Some (s, r) →
  parse_stmts T (S n) ts = (s ::.) <$> parse_stmts T n r.
Proof.
  intros H. destruct ts as [|t ts]; [done|]. cbn [parse_stmts]. by rewrite H.
Qed.

(** X3.  A block that declares a local variable of any object type, never
    reads it, and passes it to [UNUSED] compiles; running it declares the
    variable and does nothing else (no value is read, so that the
    variable holding none is not an error, and nothing is written). *)
Theorem unused_local_compiles_and_runs (p : platform) (D : gmap string macro) M Th
    (T Γ : gmap string ctype) (ty cty : ctype) (v : string) (ts : list token)
    (st : state) :
  translation_unit D = Some (M, Th) →
  resolve T ty = Some cty →
  is_void cty = false →
  T !! v = None →
  Γ !! v = None →
  UNUSED M [TIdent v] = Some ts →
  compile_block p T Γ (type_tokens ty ++ TIdent v :: TSemi :: ts)
    = Some [SDecl ty v None; SExpr (ECast CVoid (EVar v))] ∧
  exec_all p T [SDecl ty v None; SExpr (ECast CVoid (EVar v))] st
    = Some (declare st v cty).
Proof.
  intros Htu Hty Hv HT HΓ Hts.
  rewrite (UNUSED_tokens _ _ _ _ Htu) in Hts. injection Hts as <-.
  split.
  - unfold compile_block.
    cbn [app]. rewrite length_app. cbn [length].
    replace (length (type_tokens ty) + 7)%nat
      with (S (S (length (type_tokens ty) + 5))) by lia.
    rewrite (parse_stmts_cons _ _ _ _ _ (parse_stmt_declaration T ty cty v _ Hty)).
    rewrite (parse_stmts_cons _ _ _ _ _ (parse_stmt_UNUSED_variable T v [] HT)).
    replace (parse_stmts T (length (type_tokens ty) + 5) [])
      with (Some ([] : list stmt)) by by destruct (length (type_tokens ty) + 5)%nat.
    simpl. rewrite Hty. simpl. rewrite Hv, HΓ. simpl.
    by rewrite lookup_insert_eq.
  - simpl. rewrite Hty. simpl. by rewrite lookup_insert_eq.
Qed.

Lemma unused_local_compiles_and_runs_witness :
  compile_block (Platform 8 true 32) header_typedefs ∅
    [TIdent "utf8char"; TIdent "c"; TSemi; TLParen; TVoid; TRParen; TIdent "c"; TSemi]
    = Some [SDecl utf8char "c" None; SExpr (ECast CVoid (EVar "c"))] ∧
  exec_all (Platform 8 true 32) header_typedefs
    [SDecl utf8char "c" None; SExpr (ECast CVoid (EVar "c"))] (State ∅ ∅ [])
    = Some (declare (State ∅ ∅ []) "c" CChar).
Proof.
  apply (unused_local_compiles_and_runs (Platform 8 true 32) ∅
           header_macros header_typedefs header_typedefs ∅ utf8char CChar "c"
           [TLParen; TVoid; TRParen; TIdent "c"; TSemi] (State ∅ ∅ []));
    reflexivity.
Defined.

(** ** A parenthesised argument *)

Section Parenthesised.
Context (T : gmap string ctype).

(** What begins an expression does not begin a type name. *)
Lemma parse_unary_not_type (n : nat) ts res suf :
  parse_unary T n ts = Some res → parse_type_spec T (ts ++ suf) = None.
Proof.
  destruct n as [|n]; [done|]. rewrite parse_unary_S.
  destruct ts as [|t ts]; [done|]. destruct t; try done.
  simpl. by destruct (T !! s).
Qed.

Lemma parse_postfix_rparen e ts :
  parse_postfix e (ts ++ [TRParen]) =
    ((parse_postfix e ts).1, (parse_postfix e ts).2 ++ [TRParen]).
Proof.
  revert e. induction ts as [|t ts IH]; intros e; [done|].
  destruct t; try done. apply IH.
Qed.

Lemma parse_cast_prefix_rparen ts ty r :
  parse_cast_prefix T ts = Some (ty, r) →
  parse_cast_prefix T (ts ++ [TRParen]) = Some (ty, r ++ [TRParen]).
Proof.
  unfold parse_cast_prefix, parse_type_spec.
  destruct ts as [|t ts]; [done|].
  destruct t; try done; simpl.
  - destruct (T !! s); [|done]. destruct ts as [|[] ts]; try done.
    by intros [= <- <-].
  - destruct ts as [|[] ts]; try done. by intros [= <- <-].
  - destruct ts as [|[] ts]; try done. by intros [= <- <-].
  - destruct ts as [|[] ts]; try done. by intros [= <- <-].
  - destruct ts as [|[] ts]; try done.
    destruct ts as [|[] ts]; try done. by intros [= <- <-].
Qed.

(** Reading stops at a closing parenthesis as it stops at the end of the
    input. *)
Lemma parse_rparen (n : nat) :
  (∀ ts e r, parse_unary T n ts = Some (e, r) →
             parse_unary T n (ts ++ [TRParen]) = Some (e, r ++ [TRParen])) ∧
  (∀ min ts rs r, parse_rhs T n min ts = Some (rs, r) →
                  parse_rhs T n min (ts ++ [TRParen]) = Some (rs, r ++ [TRParen])).
Proof.
  induction n as [|n [IHu IHr]]; [done|]. split.
  - intros ts e r. rewrite !parse_unary_S.
    destruct ts as [|t ts]; [done|].
    destruct t; try done; cbn [app].
    + destruct (T !! s); [done|]. intros [= H]. by rewrite parse_postfix_rparen, H.
    + intros [= H]. by rewrite parse_postfix_rparen, H.
    + destruct (parse_cast_prefix T ts) as [[ty r1]|] eqn:Ec.
      * rewrite (parse_cast_prefix_rparen _ _ _ Ec).
        destruct (parse_unary T n r1) as [[e1 r2]|] eqn:E1; [|done].
        rewrite (IHu _ _ _ E1). cbn [mbind option_bind]. by intros [= <- <-].
      * destruct (parse_unary T n ts) as [[l r1]|] eqn:E1; [|done].
        unfold parse_cast_prefix at 1.
        rewrite (parse_unary_not_type _ _ _ [TRParen] E1).
        rewrite (IHu _ _ _ E1). cbn [mbind option_bind].
        destruct (parse_rhs T n 0 r1) as [[rs r2]|] eqn:E2; [|done].
        rewrite (IHr _ _ _ _ E2). cbn [mbind option_bind].
        destruct r2 as [|t r2]; [done|]. destruct t; try done. cbn [app].
        intros [= H]. by rewrite parse_postfix_rparen, H.
    + destruct (parse_unary T n ts) as [[e1 r1]|] eqn:E1; [|done].
      rewrite (IHu _ _ _ E1). cbn [mbind option_bind]. by intros [= <- <-].
    + destruct (parse_unary T n ts) as [[e1 r1]|] eqn:E1; [|done].
      rewrite (IHu _ _ _ E1). cbn [mbind option_bind]. by intros [= <- <-].
  - intros min ts rs r. rewrite !parse_rhs_S.
    destruct ts as [|t ts]; [by intros [= <- <-]|]. cbn [app].
    destruct (binop_of_token t) as [op|]; [|by intros [= <- <-]].
    destruct (min <=? prec op)%nat; [|by intros [= <- <-]].
    destruct (parse_unary T n ts) as [[l r1]|] eqn:E1; [|done].
    rewrite (IHu _ _ _ E1). cbn [mbind option_bind].
    destruct (parse_rhs T n (rhs_prec op) r1) as [[rs1 r2]|] eqn:E2; [|done].
    rewrite (IHr _ _ _ _ E2). cbn [mbind option_bind].
    destruct (parse_rhs T n min r2) as [[more r3]|] eqn:E3; [|done].
    rewrite (IHr _ _ _ _ E3). cbn [mbind option_bind]. by intros [= <- <-].
Qed.

(** An expression in parentheses is an assignment-expression. *)
Lemma parse_parenthesised (arg : list token) (x : expr) :
  parse_expression T arg = Some x →
  parse_assignment_expression T (TLParen :: arg ++ [TRParen]) = Some (EParen x).
Proof.
  unfold parse_expression, parse_assignment_expression, parse_binary.
  destruct (parse_unary T (S (length arg)) arg) as [[l r1]|] eqn:E1; [|done].
  cbn [mbind option_bind].
  destruct (parse_rhs T (S (length arg)) 0 r1) as [[rs r2]|] eqn:E2; [|done].
  cbn [mbind option_bind]. destruct r2; [|done]. intros [= <-].
  assert (Hl : length (TLParen :: arg ++ [TRParen]) = S (S (length arg))).
  { cbn [length]. rewrite length_app. simpl. lia. }
  rewrite Hl, parse_unary_S.
  unfold parse_cast_prefix.
  rewrite (parse_unary_not_type _ _ _ [TRParen] E1).
  apply (proj1 (parse_rparen _)) in E1. apply (proj2 (parse_rparen _)) in E2.
  rewrite (proj1 (parse_fuel_S T _) _ _ E1). cbn [mbind option_bind].
  rewrite (proj2 (parse_fuel_S T _) _ _ _ E2). cbn [mbind option_bind app].
  reflexivity.
Qed.

End Parenthesised.

(** X4.  With its argument in parentheses, [UNUSED] accepts every
    well-typed expression, the binary ones and the comma expressions
    included: [UNUSED((x))] compiles to the cast of [(x)] to [void], and
    running it evaluates [x] exactly once. *)
Theorem UNUSED_parenthesised (p : platform) (D : gmap string macro) M Th
    (T Γ : gmap string ctype) (arg ts : list token) (x : expr) (st : state) :
  translation_unit D = Some (M, Th) →
  parse_expression T arg = Some x →
  is_Some (typeof p T Γ x) →
  UNUSED M (TLParen :: arg ++ [TRParen]) = Some ts →
  compile_stmt p T Γ ts = Some (SExpr (ECast CVoid (EParen x))) ∧
  exec p T (SExpr (ECast CVoid (EParen x))) st = state_after p T x st.
Proof.
  intros Htu Hx [[t lv] Ht] Hts.
  rewrite (UNUSED_tokens _ _ _ _ Htu) in Hts. injection Hts as <-.
  split; [|apply (exec_discard p T (EParen x) st)].
  pose proof (parse_parenthesised T arg x Hx) as Hp.
  revert Hp. unfold parse_assignment_expression, parse_binary, compile_stmt.
  destruct (parse_unary T _ (TLParen :: arg ++ [TRParen])) as [[l r1]|] eqn:E1; [|done].
  cbn [mbind option_bind].
  destruct (parse_rhs T _ 1 r1) as [[rs r2]|] eqn:E2; [|done].
  cbn [mbind option_bind]. destruct r2; [|done]. intros [= Hl].
  pose proof (UNUSED_parse _ _ _ _ _ E1 E2) as Hs.
  cbn [app] in Hs |- *. rewrite Hs. cbn [check_stmt].
  destruct rs as [|[op r] rs].
  - change (apply_rhs l []) with l in Hl. subst l.
    change (apply_rhs (ECast CVoid (EParen x)) []) with (ECast CVoid (EParen x)).
    rewrite typeof_ECast_void. simpl. by rewrite Ht.
  - pose proof (apply_rhs_binary (EBin op l r) rs eq_refl) as Hb.
    change (apply_rhs (EBin op l r) rs) with (apply_rhs l ((op, r) :: rs)) in Hb.
    by rewrite Hl in Hb.
Qed.

Lemma UNUSED_parenthesised_witness :
  compile_stmt (Platform 8 true 32) header_typedefs {["a" := CInt; "b" := CInt]}
    [TLParen; TVoid; TRParen; TLParen; TIdent "a"; TAssign; TIdent "b"; TRParen; TSemi]
    = Some (SExpr (ECast CVoid (EParen (EBin Assign (EVar "a") (EVar "b"))))) ∧
  exec (Platform 8 true 32) header_typedefs
    (SExpr (ECast CVoid (EParen (EBin Assign (EVar "a") (EVar "b")))))
    (State {["a" := CInt; "b" := CInt]} {["b" := 5]} [])
  = state_after (Platform 8 true 32) header_typedefs (EBin Assign (EVar "a") (EVar "b"))
      (State {["a" := CInt; "b" := CInt]} {["b" := 5]} []).
Proof.
  apply (UNUSED_parenthesised (Platform 8 true 32) ∅ header_macros header_typedefs
           header_typedefs {["a" := CInt; "b" := CInt]}
           [TIdent "a"; TAssign; TIdent "b"]
           [TLParen; TVoid; TRParen; TLParen; TIdent "a"; TAssign; TIdent "b";
            TRParen; TSemi]); try reflexivity.
  by eexists.
Defined.

(** ** What evaluation keeps *)

(** Evaluation declares nothing and changes no type. *)
Lemma eval_types (p : platform) T (e : expr) :
  ∀ st r st', eval p T e st = Some (r, st') → st_types st' = st_types st.
Proof.
  induction e as [n|x|e IH|ty e IH|e IH|e IH|e IH|op l IHl r IHr];
    intros st res st' H; simpl in H.
  - by simplify_eq.
  - destruct (st_types st !! x); by simplify_eq.
  - by apply (IH _ _ _ H).
  - eval_cases; subst; eauto.
  - eval_cases; subst; eauto.
  - eval_cases; subst; simpl; eauto.
  - eval_cases; subst; simpl; eauto.
  - destruct op; eval_cases; subst; simpl;
      repeat match goal with
      | H : eval _ _ l _ = Some _ |- _ => apply IHl in H
      | H : eval _ _ r _ = Some _ |- _ => apply IHr in H
      end; congruence.
Qed.

Lemma convert_in_range (p : platform) (ty : ctype) (v : Z) :
  0 < char_bits p → 0 < int_bits p → is_integer ty = true →
  in_range p ty (convert p ty v) = true.
Proof.
  intros Hc Hi Hty. unfold in_range, type_range, convert.
  destruct (type_bits p ty) as [w|] eqn:Ew; [|by destruct ty].
  assert (Hw : 0 < w) by (destruct ty; simpl in Ew; simplify_eq; done).
  cbn [mbind option_bind].
  assert (Hp : 2 ^ w = 2 * 2 ^ (w - 1)).
  { rewrite <- Z.pow_succ_r by lia. f_equal. lia. }
  assert (Hh : 0 < 2 ^ (w - 1)) by (apply Z.pow_pos_nonneg; lia).
  destruct (type_signed p ty).
  - pose proof (Z.mod_pos_bound (v + 2 ^ (w - 1)) (2 ^ w) ltac:(lia)).
    apply andb_true_intro. split; [apply Z.leb_le|apply Z.ltb_lt]; lia.
  - pose proof (Z.mod_pos_bound v (2 ^ w) ltac:(lia)).
    apply andb_true_intro. split; [apply Z.leb_le|apply Z.ltb_lt]; lia.
Qed.

Lemma write_store_ok (p : platform) (st : state) (x : string) (ty : ctype) (v : Z) :
  store_ok p st → st_types st !! x = Some ty → in_range p ty v = true →
  store_ok p (write st x v).
Proof.
  intros Hst Hx Hv y ty' v'. simpl.
  destruct (decide (x = y)) as [<-|Hne].
  - rewrite lookup_insert_eq. intros ? [= <-]. by simplify_eq.
  - rewrite lookup_insert_ne by done. apply Hst.
Qed.

Lemma load_variable_type (st : state) (x : string) (ty : ctype) (v : Z) :
  load st (RLval x) = Some (ty, v) → st_types st !! x = Some ty.
Proof.
  simpl. destruct (st_types st !! x); [|done]. simpl.
  destruct (st_store st !! x); [|done]. by intros [= <- <-].
Qed.

Lemma increment_in_range (p : platform) (ty : ctype) (v v' : Z) :
  0 < char_bits p → 0 < int_bits p → is_integer ty = true →
  increment p ty v = Some v' → in_range p ty v' = true.
Proof.
  intros Hc Hi Hty. unfold increment.
  destruct (arith p _ Add _ 1); [|done]. intros [= <-].
  by apply convert_in_range.
Qed.

Lemma eval_types_ok (p : platform) T (e : expr) st r st' :
  types_ok st → eval p T e st = Some (r, st') → types_ok st'.
Proof.
  intros Hty He x ty. rewrite (eval_types _ _ _ _ _ _ He). apply Hty.
Qed.

(** Evaluation keeps every variable within its type: what a write
    stores has been converted to the type of the variable. *)
Lemma eval_store_ok (p : platform) T (e : expr) :
  0 < char_bits p → 0 < int_bits p →
  ∀ st r st', types_ok st → store_ok p st →
    eval p T e st = Some (r, st') → store_ok p st'.
Proof.
  intros Hc Hi.
  induction e as [n|x|e IH|ty e IH|e IH|e IH|e IH|op l IHl r IHr];
    intros st res st' Hty Hst H; simpl in H.
  - by simplify_eq.
  - destruct (st_types st !! x); by simplify_eq.
  - by apply (IH _ _ _ Hty Hst H).
  - eval_cases; subst; eauto.
  - eval_cases; subst; eauto.
  - eval_cases; subst.
    match goal with He : eval _ _ e _ = Some _ |- _ =>
      pose proof (eval_types_ok _ _ _ _ _ _ Hty He) as Hty1;
      pose proof (IH _ _ _ Hty Hst He) as Hs1 end.
    match goal with Hl : load _ (RLval _) = Some _ |- _ =>
      pose proof (load_variable_type _ _ _ _ Hl) as Hx end.
    eapply write_store_ok; [done..|].
    eapply increment_in_range; [done..| |done]. exact (Hty1 _ _ Hx).
  - eval_cases; subst.
    match goal with He : eval _ _ e _ = Some _ |- _ =>
      pose proof (eval_types_ok _ _ _ _ _ _ Hty He) as Hty1;
      pose proof (IH _ _ _ Hty Hst He) as Hs1 end.
    match goal with Hl : load _ (RLval _) = Some _ |- _ =>
      pose proof (load_variable_type _ _ _ _ Hl) as Hx end.
    eapply write_store_ok; [done..|].
    eapply increment_in_range; [done..| |done]. exact (Hty1 _ _ Hx).
  - destruct op; eval_cases; subst;
      repeat match goal with
      | He : eval p T l ?s = Some (_, ?s'), Ht : types_ok ?s, Hs : store_ok p ?s |- _ =>
          lazymatch goal with
          | _ : store_ok p s' |- _ => fail
          | _ => pose proof (eval_types_ok _ _ _ _ _ _ Ht He);
                 pose proof (IHl _ _ _ Ht Hs He)
          end
      | He : eval p T r ?s = Some (_, ?s'), Ht : types_ok ?s, Hs : store_ok p ?s |- _ =>
          lazymatch goal with
          | _ : store_ok p s' |- _ => fail
          | _ => pose proof (eval_types_ok _ _ _ _ _ _ Ht He);
                 pose proof (IHr _ _ _ Ht Hs He)
          end
      end; try done.
    eapply write_store_ok; [done..|].
    apply convert_in_range; [done..|].
    match goal with Ht : types_ok ?s, Hx : st_types ?s !! _ = Some _ |- _ =>
      exact (Ht _ _ Hx) end.
Qed.

(** X5.  [UNUSED] declares nothing.  Whatever its argument, the
    statement it compiles to leaves the variables in scope as they are,
    and running it leaves every variable with the type it had, side
    effects of the argument or not. *)
Theorem UNUSED_declares_nothing (p : platform) (D : gmap string macro) M Th
    (T Γ : gmap string ctype) (arg ts : list token) (x : expr) (s : stmt) :
  translation_unit D = Some (M, Th) →
  parse_assignment_expression T arg = Some x →
  UNUSED M arg = Some ts →
  compile_stmt p T Γ ts = Some s →
  check_stmt p T Γ s = Some Γ ∧
  ∀ st st', exec p T s st = Some st' → st_types st' = st_types st.
Proof.
  intros Htu Hx Hts Hs.
  rewrite (UNUSED_tokens _ _ _ arg Htu) in Hts. injection Hts as <-.
  pose proof (UNUSED_statement _ _ _ _ _ _ Hx Hs) as ->.
  split.
  - revert Hs. unfold compile_stmt.
    destruct (parse_stmt T _) as [[s' [|? ?]]|]; try done.
    destruct (check_stmt p T Γ s') as [Γ'|] eqn:Ec; [|done].
    intros [= ->]. revert Ec. cbn [check_stmt].
    by destruct (typeof p T Γ (ECast CVoid x)).
  - intros st st'. rewrite exec_discard. unfold state_after.
    destruct (eval p T x st) as [[r st1]|] eqn:He; [|done].
    intros [= <-]. exact (eval_types _ _ _ _ _ _ He).
Qed.

Lemma UNUSED_declares_nothing_witness :
  check_stmt (Platform 8 true 32) header_typedefs {["i" := CInt]}
    (SExpr (ECast CVoid (EPostInc (EVar "i")))) = Some {["i" := CInt]} ∧
  ∀ st st', exec (Platform 8 true 32) header_typedefs
              (SExpr (ECast CVoid (EPostInc (EVar "i")))) st = Some st' →
            st_types st' = st_types st.
Proof.
  apply (UNUSED_declares_nothing (Platform 8 true 32) ∅ header_macros header_typedefs
           header_typedefs {["i" := CInt]} [TIdent "i"; TPlusPlus]
           [TLParen; TVoid; TRParen; TIdent "i"; TPlusPlus; TSemi]
           (EPostInc (EVar "i"))); reflexivity.
Defined.

(** ** No effect of its own *)

(** An expression without assignment or increment leaves the state as it
    is. *)
Lemma eval_no_writes (p : platform) T (e : expr) :
  writes e = false →
  ∀ st r st', eval p T e st = Some (r, st') → st' = st.
Proof.
  induction e as [n|x|e IH|ty e IH|e IH|e IH|e IH|op l IHl r IHr];
    intros Hw st res st' H; simpl in H, Hw; try discriminate Hw.
  - by simplify_eq.
  - destruct (st_types st !! x); by simplify_eq.
  - by apply (IH Hw _ _ _ H).
  - eval_cases; subst; eauto.
  - eval_cases; subst; eauto.
  - destruct op; try discriminate Hw;
      apply orb_false_elim in Hw as [Hl Hr];
      eval_cases; subst;
      repeat match goal with
      | H : eval _ _ l _ = Some _ |- _ => apply (IHl Hl) in H
      | H : eval _ _ r _ = Some _ |- _ => apply (IHr Hr) in H
      end; congruence.
Qed.

(** An argument that is well-typed and not a binary operation compiles. *)
Lemma UNUSED_compiles p T Γ (arg : list token) (x : expr) :
  parse_assignment_expression T arg = Some x →
  is_binary x = false → is_Some (typeof p T Γ x) →
  compile_stmt p T Γ (TLParen :: TVoid :: TRParen :: arg ++ [TSemi])
    = Some (SExpr (ECast CVoid x)).
Proof.
  unfold parse_assignment_expression, parse_binary, compile_stmt.
  destruct (parse_unary T (S (length arg)) arg) as [[l r1]|] eqn:E1; [|done].
  cbn [mbind option_bind].
  destruct (parse_rhs T (S (length arg)) 1 r1) as [[rs r2]|] eqn:E2; [|done].
  cbn [mbind option_bind].
  destruct r2; [|done]. intros [= <-].
  rewrite (UNUSED_parse _ _ _ _ _ E1 E2). cbn [check_stmt].
  destruct rs as [|[op r] rs].
  - change (apply_rhs (ECast CVoid l) []) with (ECast CVoid l).
    change (apply_rhs l []) with l.
    rewrite typeof_ECast_void. intros _ [[t lv] ->]. reflexivity.
  - intros Hb.
    change (apply_rhs l ((op, r) :: rs)) with (apply_rhs (EBin op l r) rs) in Hb.
    by rewrite (apply_rhs_binary (EBin op l r) rs eq_refl) in Hb.
Qed.

Lemma compile_stmt_check p T Γ (ts : list token) (s : stmt) :
  compile_stmt p T Γ ts = Some s → is_Some (check_stmt p T Γ s).
Proof.
  unfold compile_stmt.
  destruct (parse_stmt T ts) as [[s' [|? ?]]|]; try done.
  destruct (check_stmt p T Γ s') as [Γ'|] eqn:Ec; [|done].
  intros [= <-]. by eexists.
Qed.

(** C1.  [UNUSED(x)] has no effect of its own.  For every argument that
    is an assignment-expression [x], [UNUSED] has a replacement.  When [x]
    is well-typed and not a binary operation outside parentheses, the
    replacement compiles, to the cast of [x] to [void].  And whenever it
    compiles to a statement: the variables in scope and their types are
    what they were; from every state, running the statement gives exactly
    what evaluating [x] alone gives (the same state with the same writes
    in the same order, or the same failure); the types of the variables
    in the state are kept; and when [x] itself writes nothing, the state
    after [UNUSED(x)] is the state before it, so that every variable,
    those [x] names included, has the value and the type it had. *)
Theorem UNUSED_no_effect_of_its_own (p : platform) (D : gmap string macro) M Th
    (T Γ : gmap string ctype) (arg : list token) (x : expr) :
  translation_unit D = Some (M, Th) →
  parse_assignment_expression T arg = Some x →
  ∃ ts, UNUSED M arg = Some ts ∧
    (is_binary x = false → is_Some (typeof p T Γ x) →
       compile_stmt p T Γ ts = Some (SExpr (ECast CVoid x))) ∧
    ∀ s, compile_stmt p T Γ ts = Some s →
      check_stmt p T Γ s = Some Γ ∧
      ∀ st,
        exec p T s st = state_after p T x st ∧
        ∀ st', exec p T s st = Some st' →
          st_types st' = st_types st ∧
          (writes x = false → st' = st).
Proof.
  intros Htu Hx. eexists. split; [exact (UNUSED_tokens _ _ _ arg Htu)|]. split.
  - apply UNUSED_compiles, Hx.
  - intros s Hs.
    pose proof (UNUSED_statement _ _ _ _ _ _ Hx Hs) as ->. split.
    + destruct (compile_stmt_check _ _ _ _ _ Hs) as [Γ' Hc]. revert Hc.
      cbn [check_stmt]. by destruct (typeof p T Γ (ECast CVoid x)).
    + intros st. split; [apply exec_discard|].
      intros st'. rewrite exec_discard. unfold state_after.
      destruct (eval p T x st) as [[r st1]|] eqn:He; [|done].
      intros [= <-]. split; [exact (eval_types _ _ _ _ _ _ He)|].
      intros Hw. exact (eval_no_writes _ _ _ Hw _ _ _ He).
Qed.

Lemma UNUSED_no_effect_of_its_own_witness :
  ∃ ts, UNUSED header_macros [TLParen; TIdent "uint"; TRParen; TIdent "i"; TPlusPlus]
          = Some ts ∧
    (is_binary (ECast uint (EPostInc (EVar "i"))) = false →
     is_Some (typeof (Platform 8 true 32) header_typedefs {["i" := CInt]}
                (ECast uint (EPostInc (EVar "i")))) →
       compile_stmt (Platform 8 true 32) header_typedefs {["i" := CInt]} ts
         = Some (SExpr (ECast CVoid (ECast uint (EPostInc (EVar "i")))))) ∧
    ∀ s, compile_stmt (Platform 8 true 32) header_typedefs {["i" := CInt]} ts = Some s →
      check_stmt (Platform 8 true 32) header_typedefs {["i" := CInt]} s
        = Some {["i" := CInt]} ∧
      ∀ st,
        exec (Platform 8 true 32) header_typedefs s st
          = state_after (Platform 8 true 32) header_typedefs
              (ECast uint (EPostInc (EVar "i"))) st ∧
        ∀ st', exec (Platform 8 true 32) header_typedefs s st = Some st' →
          st_types st' = st_types st ∧
          (writes (ECast uint (EPostInc (EVar "i"))) = false → st' = st).
Proof.
  apply (UNUSED_no_effect_of_its_own (Platform 8 true 32) ∅ header_macros
           header_typedefs header_typedefs {["i" := CInt]}
           [TLParen; TIdent "uint"; TRParen; TIdent "i"; TPlusPlus]
           (ECast uint (EPostInc (EVar "i")))); reflexivity.
Defined.

(** X6.  Variables of the alias types stay within their types.  In a
    state where every variable has an integer type and holds a value of
    it, evaluating any expression leaves every [uint] variable with a
    value [0 <= v < 2 ^ w] and every [utf8char] variable with a value of
    [char]: whatever an assignment or an increment stores has been
    converted to the type of the variable. *)
Theorem aliases_stay_in_range (p : platform) (D : gmap string macro) M T
    (e : expr) (st st' : state) (r : result) :
  translation_unit D = Some (M, T) →
  0 < char_bits p → 0 < int_bits p →
  types_ok st → store_ok p st →
  eval p T e st = Some (r, st') →
  (∀ x v, st_types st' !! x = resolve T uint → st_store st' !! x = Some v →
          0 ≤ v < 2 ^ int_bits p) ∧
  (∀ x v, st_types st' !! x = resolve T utf8char → st_store st' !! x = Some v →
          is_value p T utf8char v = true).
Proof.
  intros Htu Hc Hi Hty Hst He.
  pose proof (eval_store_ok p T e Hc Hi _ _ _ Hty Hst He) as Hst'.
  rewrite (resolve_uint _ _ _ Htu). unfold is_value.
  rewrite (resolve_utf8char _ _ _ Htu).
  split; intros x v Hx Hv; [|by apply (Hst' _ _ _ Hx Hv)].
  pose proof (Hst' _ _ _ Hx Hv) as Hr. revert Hr.
  unfold in_range, type_range. cbn [type_bits type_signed mbind option_bind].
  rewrite andb_true_iff, Z.leb_le, Z.ltb_lt. done.
Qed.

Lemma aliases_stay_in_range_witness :
  (∀ x v, st_types (State {["n" := CUInt]} {["n" := 0]} [EvWrite "n" 0]) !! x
            = resolve header_typedefs uint →
          st_store (State {["n" := CUInt]} {["n" := 0]} [EvWrite "n" 0]) !! x = Some v →
          0 ≤ v < 2 ^ int_bits (Platform 8 true 32)) ∧
  (∀ x v, st_types (State {["n" := CUInt]} {["n" := 0]} [EvWrite "n" 0]) !! x
            = resolve header_typedefs utf8char →
          st_store (State {["n" := CUInt]} {["n" := 0]} [EvWrite "n" 0]) !! x = Some v →
          is_value (Platform 8 true 32) header_typedefs utf8char v = true).
Proof.
  apply (aliases_stay_in_range (Platform 8 true 32) ∅ header_macros header_typedefs
           (EPreInc (EVar "n"))
           (State {["n" := CUInt]} {["n" := 4294967295]} [])
           (State {["n" := CUInt]} {["n" := 0]} [EvWrite "n" 0])
           (RLval "n")); try reflexivity.
  - intros x ty. simpl. intros [<- <-]%lookup_singleton_Some. reflexivity.
  - intros x ty v. simpl.
    intros [<- <-]%lookup_singleton_Some [_ <-]%lookup_singleton_Some. reflexivity.
Defined.

(** ** The header and the command line *)

Lemma pp_lines_app (st : pp_state) (l1 l2 : list pp_line) :
  pp_lines st (l1 ++ l2) = pp_lines st l1 ≫= λ st', pp_lines st' l2.
Proof.
  revert st. induction l1 as [|l l1 IH]; intros st; [done|].
  simpl. destruct (pp_step st l) as [st1|]; [|done]. apply IH.
Qed.

(** The header's own lines run from any point outside a conditional. *)
Lemma pp_lines_own (M : gmap string macro) (out : list token) :
  pp_lines (PPState M [] out) coretypes_h_own =
    v ← TTV_PLATFORM_MAC M;
    Some (PPState
            (<["UNUSED" := MFunction ["x"] [TLParen; TVoid; TRParen; TIdent "x"; TSemi]]>
               (<["TTVSDK_API" := MObject (if v =? 0 then [] else visibility_default)]> M))
            []
            (out ++ [TTypedef; TChar; TIdent "utf8char"; TSemi;
                     TTypedef; TUnsigned; TInt; TIdent "uint"; TSemi])).
Proof.
  unfold coretypes_h_own, coretypes_h, TTV_PLATFORM_MAC.
  cbn [drop pp_lines pp_step pp_active pp_conds pp_macros pp_out forallb mbind option_bind].
  destruct (cond_value M [TIdent "TTV_PLATFORM_MAC"]) as [v|]; [|done].
  cbn [mbind option_bind]. destruct (v =? 0); cbn; by rewrite <- app_assoc.
Qed.

(** The whole header: its first three lines leave the state as it is. *)
Lemma pp_lines_header (M : gmap string macro) (out : list token) :
  pp_lines (PPState M [] out) coretypes_h = pp_lines (PPState M [] out) coretypes_h_own.
Proof. reflexivity. Qed.

(** X7.  The header's own lines (those after the two includes) define
    [TTVSDK_API] and [UNUSED], declare the two aliases, and touch nothing
    else.  Whatever macros [M0] and declarations [out0] are there when
    they are reached (what the command line and the system headers left),
    every other macro is afterwards as it was, [UNUSED] is defined one
    way, [TTVSDK_API] is one of its two replacement lists, the
    declarations are followed by the two typedefs and by nothing more,
    and no conditional is left open. *)
Theorem header_defines_two_macros (M0 : gmap string macro) (out0 : list token)
    (st : pp_state) :
  pp_lines (PPState M0 [] out0) coretypes_h_own = Some st →
  (∀ name, name ≠ "TTVSDK_API" → name ≠ "UNUSED" → pp_macros st !! name = M0 !! name) ∧
  pp_macros st !! "UNUSED" = header_macros !! "UNUSED" ∧
  (TTVSDK_API (pp_macros st) = Some [] ∨
   TTVSDK_API (pp_macros st) = Some visibility_default) ∧
  pp_out st = out0 ++ [TTypedef; TChar; TIdent "utf8char"; TSemi;
                       TTypedef; TUnsigned; TInt; TIdent "uint"; TSemi] ∧
  pp_conds st = [].
Proof.
  rewrite pp_lines_own.
  destruct (TTV_PLATFORM_MAC M0) as [v|]; [|done].
  cbn [mbind option_bind]. intros [= <-]. cbn [pp_macros pp_out pp_conds].
  split_and!; [|by rewrite lookup_insert_eq| |done..].
  - intros name H1 H2. by rewrite !lookup_insert_ne.
  - unfold TTVSDK_API, expand_object.
    rewrite lookup_insert_ne by done. rewrite lookup_insert_eq.
    destruct (v =? 0); [by left|by right].
Qed.

Lemma header_defines_two_macros_witness :
  (∀ name, name ≠ "TTVSDK_API" → name ≠ "UNUSED" →
     <["UNUSED" := MFunction ["x"] [TLParen; TVoid; TRParen; TIdent "x"; TSemi]]>
       (<["TTVSDK_API" := MObject []]>
          ({["NULL" := MObject [TNum 0]]} : gmap string macro)) !! name
     = ({["NULL" := MObject [TNum 0]]} : gmap string macro) !! name) ∧
  <["UNUSED" := MFunction ["x"] [TLParen; TVoid; TRParen; TIdent "x"; TSemi]]>
    (<["TTVSDK_API" := MObject []]>
       ({["NULL" := MObject [TNum 0]]} : gmap string macro)) !! "UNUSED"
    = header_macros !! "UNUSED" ∧
  (TTVSDK_API
     (<["UNUSED" := MFunction ["x"] [TLParen; TVoid; TRParen; TIdent "x"; TSemi]]>
        (<["TTVSDK_API" := MObject []]>
           ({["NULL" := MObject [TNum 0]]} : gmap string macro))) = Some [] ∨
   TTVSDK_API
     (<["UNUSED" := MFunction ["x"] [TLParen; TVoid; TRParen; TIdent "x"; TSemi]]>
        (<["TTVSDK_API" := MObject []]>
           ({["NULL" := MObject [TNum 0]]} : gmap string macro)))
     = Some visibility_default) ∧
  [TTypedef; TUnsigned; TInt; TIdent "size_t"; TSemi;
   TTypedef; TChar; TIdent "utf8char"; TSemi;
   TTypedef; TUnsigned; TInt; TIdent "uint"; TSemi]
    = [TTypedef; TUnsigned; TInt; TIdent "size_t"; TSemi] ++
      [TTypedef; TChar; TIdent "utf8char"; TSemi;
       TTypedef; TUnsigned; TInt; TIdent "uint"; TSemi] ∧
  ([] : list bool) = [].
Proof.
  exact (header_defines_two_macros {["NULL" := MObject [TNum 0]]}
           [TTypedef; TUnsigned; TInt; TIdent "size_t"; TSemi]
           (PPState
              (<["UNUSED" := MFunction ["x"] [TLParen; TVoid; TRParen; TIdent "x"; TSemi]]>
                 (<["TTVSDK_API" := MObject []]> {["NULL" := MObject [TNum 0]]}))
              []
              [TTypedef; TUnsigned; TInt; TIdent "size_t"; TSemi;
               TTypedef; TChar; TIdent "utf8char"; TSemi;
               TTypedef; TUnsigned; TInt; TIdent "uint"; TSemi])
           eq_refl).
Defined.

(** X8.  The platform flag is tested with [#if], so it needs a value:
    with [TTV_PLATFORM_MAC] defined to nothing the header does not
    preprocess, while with the flag not defined, or defined to a number,
    it does. *)
Theorem header_needs_flag_value (D : gmap string macro) :
  (D !! "TTV_PLATFORM_MAC" = Some (MObject []) → translation_unit D = None) ∧
  (D !! "TTV_PLATFORM_MAC" = None → is_Some (translation_unit D)) ∧
  (∀ n, D !! "TTV_PLATFORM_MAC" = Some (MObject [TNum n]) →
        is_Some (translation_unit D)).
Proof.
  rewrite translation_unit_eq. split_and!.
  - intros H. by rewrite (TTV_PLATFORM_MAC_empty D H).
  - intros H. rewrite (TTV_PLATFORM_MAC_undefined D H). by eexists.
  - intros n H. rewrite (TTV_PLATFORM_MAC_number D n H). by eexists.
Qed.

Lemma header_needs_flag_value_witness :
  translation_unit {["TTV_PLATFORM_MAC" := MObject []]} = None.
Proof.
  apply (header_needs_flag_value {["TTV_PLATFORM_MAC" := MObject []]}). reflexivity.
Defined.

(** The header does not change how a flag that is not defined, or is
    defined as a number, reads. *)
Lemma TTV_PLATFORM_MAC_after_header (D : gmap string macro) (m1 m2 : macro) :
  (D !! "TTV_PLATFORM_MAC" = None ∨
   ∃ n, D !! "TTV_PLATFORM_MAC" = Some (MObject [TNum n])) →
  TTV_PLATFORM_MAC (<["UNUSED" := m1]> (<["TTVSDK_API" := m2]> D)) = TTV_PLATFORM_MAC D.
Proof.
  intros [H|[n H]].
  - rewrite (TTV_PLATFORM_MAC_undefined D H).
    apply TTV_PLATFORM_MAC_undefined. by rewrite !lookup_insert_ne.
  - rewrite (TTV_PLATFORM_MAC_number D n H).
    apply TTV_PLATFORM_MAC_number. by rewrite !lookup_insert_ne.
Qed.

(** X9.  On a command line that leaves the platform flag undefined or
    defines it as a number, including the header twice is the same as
    including it once, also where [#pragma once] is not honoured: the
    second pass redefines both macros to what they are and redeclares
    both typedefs to the types they have.  The condition on the flag is
    needed: a flag whose replacement list names a macro of the header can
    read differently the second time (X15). *)
Theorem header_twice (D : gmap string macro) :
  (D !! "TTV_PLATFORM_MAC" = None ∨
   ∃ n, D !! "TTV_PLATFORM_MAC" = Some (MObject [TNum n])) →
  translate D (coretypes_h ++ coretypes_h) = translation_unit D.
Proof.
  intros HD.
  rewrite translation_unit_eq. unfold translate, preprocess.
  rewrite pp_lines_app, pp_lines_header, pp_lines_own.
  destruct (TTV_PLATFORM_MAC D) as [v|] eqn:Ev; [|done].
  cbn [mbind option_bind]. rewrite pp_lines_header, pp_lines_own.
  rewrite (TTV_PLATFORM_MAC_after_header D _ _ HD), Ev.
  cbn [mbind option_bind pp_conds pp_out pp_macros app].
  replace (parse_typedefs _ ∅ _) with (Some header_typedefs) by reflexivity.
  cbn [mbind option_bind]. do 2 f_equal.
  apply map_eq. intros k. rewrite !lookup_insert. by repeat case_decide.
Qed.

Lemma header_twice_witness :
  translate {["TTV_PLATFORM_MAC" := MObject [TNum 1]]} (coretypes_h ++ coretypes_h)
    = translation_unit {["TTV_PLATFORM_MAC" := MObject [TNum 1]]}.
Proof.
  apply (header_twice {["TTV_PLATFORM_MAC" := MObject [TNum 1]]}).
  right. exists 1. reflexivity.
Defined.


(** ** Conversions between the aliases *)

Lemma eval_cast_variable (p : platform) T (st : state) (c : string)
    (ty cty tc : ctype) (v : Z) :
  resolve T ty = Some cty → is_void cty = false →
  st_types st !! c = Some tc → st_store st !! c = Some v →
  eval p T (ECast ty (EVar c)) st = Some (RVal cty (convert p cty v), st).
Proof.
  intros Hty Hv Hc Hs. simpl. rewrite Hc. simpl. rewrite Hty. simpl.
  rewrite Hv, Hc. simpl. by rewrite Hs.
Qed.

Lemma pow2_le (a b : Z) : 0 ≤ a ≤ b → 0 < 2 ^ a ≤ 2 ^ b.
Proof.
  intros H. split; [apply Z.pow_pos_nonneg; lia|].
  apply Z.pow_le_mono_r; lia.
Qed.

Lemma pow2_divide (a b : Z) : 0 ≤ a ≤ b → (2 ^ a | 2 ^ b).
Proof.
  intros H. exists (2 ^ (b - a)). rewrite <- Z.pow_add_r by lia. f_equal. lia.
Qed.

Lemma pow2_half (w : Z) : 0 < w → 2 ^ w = 2 * 2 ^ (w - 1).
Proof. intros H. rewrite <- Z.pow_succ_r by lia. f_equal. lia. Qed.

(** X10.  Converting a [utf8char] to [uint] extends the sign.  For a
    variable that holds the byte [b], [(uint)c] is [b] where [char] is
    unsigned or the high bit of [b] is clear; where [char] is signed and
    the high bit is set (as in every byte of a multi-byte UTF-8 sequence)
    it is [b + (2 ^ w - 2 ^ 8)] for bytes of 8 bits, not [b]. *)
Theorem utf8char_to_uint (p : platform) (D : gmap string macro) M T
    (st : state) (c : string) (b v : Z) :
  translation_unit D = Some (M, T) →
  0 < char_bits p ≤ int_bits p →
  0 ≤ b < 2 ^ char_bits p →
  st_types st !! c = resolve T utf8char →
  decode_type p T utf8char b = Some v →
  st_store st !! c = Some v →
  eval p T (ECast uint (EVar c)) st =
    Some (RVal CUInt
            (if char_signed p && (2 ^ (char_bits p - 1) <=? b)
             then b + (2 ^ int_bits p - 2 ^ char_bits p) else b), st).
Proof.
  intros Htu Hw Hb Hc Hd Hs.
  rewrite (resolve_utf8char _ _ _ Htu) in Hc.
  revert Hd. unfold decode_type. rewrite (resolve_utf8char _ _ _ Htu).
  cbn [mbind option_bind]. unfold decode.
  cbn [type_bits type_signed mbind option_bind]. intros [= <-].
  rewrite (eval_cast_variable p T st c uint CUInt CChar _
             (resolve_uint _ _ _ Htu) eq_refl Hc Hs).
  do 3 f_equal. unfold convert. cbn [type_bits type_signed].
  pose proof (pow2_le (char_bits p) (int_bits p) ltac:(lia)) as Hp.
  destruct (char_signed p && (2 ^ (char_bits p - 1) <=? b)).
  - rewrite <- (Z_mod_plus_full (b - 2 ^ char_bits p) 1 (2 ^ int_bits p)).
    rewrite Z.mod_small by lia. lia.
  - apply Z.mod_small. lia.
Qed.

Lemma utf8char_to_uint_witness :
  eval (Platform 8 true 32) header_typedefs (ECast uint (EVar "c"))
    (State {["c" := CChar]} {["c" := -61]} []) =
  Some (RVal CUInt
          (if char_signed (Platform 8 true 32)
              && (2 ^ (char_bits (Platform 8 true 32) - 1) <=? 195)
           then 195 + (2 ^ int_bits (Platform 8 true 32)
                       - 2 ^ char_bits (Platform 8 true 32))
           else 195),
        State {["c" := CChar]} {["c" := -61]} []).
Proof.
  apply (utf8char_to_uint (Platform 8 true 32) ∅ header_macros header_typedefs
           (State {["c" := CChar]} {["c" := -61]} []) "c" 195 (-61));
    try reflexivity; simpl; lia.
Defined.

(** X11.  From [utf8char] to [uint] and back is the identity: for a
    variable that holds any value [v] of [utf8char],
    [(utf8char)(uint)c] is [v] again, on every platform whose [int] is
    at least as wide as a byte. *)
Theorem utf8char_uint_round_trip (p : platform) (D : gmap string macro) M T
    (st : state) (c : string) (v : Z) :
  translation_unit D = Some (M, T) →
  0 < char_bits p ≤ int_bits p →
  st_types st !! c = resolve T utf8char →
  st_store st !! c = Some v →
  is_value p T utf8char v = true →
  eval p T (ECast utf8char (ECast uint (EVar c))) st = Some (RVal CChar v, st).
Proof.
  intros Htu Hw Hc Hs.
  rewrite (resolve_utf8char _ _ _ Htu) in Hc.
  unfold is_value. rewrite (resolve_utf8char _ _ _ Htu).
  unfold in_range, type_range. cbn [type_bits type_signed mbind option_bind].
  intros Hv.
  change (eval p T (ECast utf8char (ECast uint (EVar c))) st) with
    ('(r, st1) ← eval p T (ECast uint (EVar c)) st;
     cty ← resolve T utf8char;
     if is_void cty then Some (RVoid, st1)
     else '(_, v) ← load st1 r; Some (RVal cty (convert p cty v), st1)).
  rewrite (eval_cast_variable p T st c uint CUInt CChar _
             (resolve_uint _ _ _ Htu) eq_refl Hc Hs).
  cbn [mbind option_bind]. rewrite (resolve_utf8char _ _ _ Htu).
  cbn [mbind option_bind is_void load]. do 3 f_equal.
  unfold convert. cbn [type_bits type_signed].
  pose proof (pow2_le (char_bits p) (int_bits p) ltac:(lia)) as Hp.
  pose proof (pow2_divide (char_bits p) (int_bits p) ltac:(lia)) as Hdiv.
  pose proof (pow2_half (char_bits p) ltac:(lia)) as Hh.
  destruct (char_signed p);
    apply andb_prop in Hv; destruct Hv as [Hlo%Z.leb_le Hhi%Z.ltb_lt].
  - rewrite Zplus_mod, (Z.mod_mod_divide v _ _ Hdiv).
    rewrite <- Zplus_mod, Z.mod_small by lia. lia.
  - rewrite (Z.mod_mod_divide v _ _ Hdiv). apply Z.mod_small. lia.
Qed.

Lemma utf8char_uint_round_trip_witness :
  eval (Platform 8 true 32) header_typedefs (ECast utf8char (ECast uint (EVar "c")))
    (State {["c" := CChar]} {["c" := -61]} []) =
  Some (RVal CChar (-61), State {["c" := CChar]} {["c" := -61]} []).
Proof.
  apply (utf8char_uint_round_trip (Platform 8 true 32) ∅ header_macros header_typedefs
           (State {["c" := CChar]} {["c" := -61]} []) "c" (-61));
    try reflexivity. simpl. lia.
Defined.

(** ** Arithmetic on the aliases *)

Lemma convert_int_id (p : platform) (v : Z) :
  0 < int_bits p → in_range p CInt v = true → convert p CInt v = v.
Proof.
  intros Hi. unfold in_range, type_range, convert.
  cbn [type_bits type_signed mbind option_bind].
  rewrite andb_true_iff, Z.leb_le, Z.ltb_lt. intros Hv.
  pose proof (pow2_half (int_bits p) Hi).
  rewrite Z.mod_small by lia. lia.
Qed.

(** A value of [char] and sums and differences of two are values of
    [int], where [int] is two bits wider than a byte. *)
Lemma char_values_in_int (p : platform) (a b : Z) :
  0 < char_bits p → char_bits p + 2 ≤ int_bits p →
  in_range p CChar a = true → in_range p CChar b = true →
  in_range p CInt a = true ∧ in_range p CInt b = true ∧
  in_range p CInt (a + b) = true ∧ in_range p CInt (a - b) = true.
Proof.
  intros Hc Hi. unfold in_range, type_range.
  cbn [type_bits type_signed mbind option_bind].
  pose proof (pow2_half (char_bits p) Hc) as Hh.
  pose proof (pow2_le (char_bits p) (int_bits p - 2) ltac:(lia)) as Hp.
  pose proof (pow2_half (int_bits p - 1) ltac:(lia)) as Hi1.
  replace (int_bits p - 1 - 1) with (int_bits p - 2) in Hi1 by lia.
  rewrite !andb_true_iff, !Z.leb_le, !Z.ltb_lt.
  destruct (char_signed p); rewrite !andb_true_iff, !Z.leb_le, !Z.ltb_lt; lia.
Qed.

(** X12.  Arithmetic on [utf8char] does not wrap at the byte.  For
    variables [x] and [y] of type [utf8char] that hold [a] and [b], the
    sum and the difference are computed in [int] and are the exact
    results [a + b] and [a - b]: they never fail and change nothing
    ([int] being at least two bits wider than a byte). *)
Theorem utf8char_arithmetic_in_int (p : platform) (D : gmap string macro) M T
    (st : state) (x y : string) (a b : Z) :
  translation_unit D = Some (M, T) →
  0 < char_bits p → char_bits p + 2 ≤ int_bits p →
  st_types st !! x = resolve T utf8char →
  st_types st !! y = resolve T utf8char →
  st_store st !! x = Some a →
  st_store st !! y = Some b →
  is_value p T utf8char a = true →
  is_value p T utf8char b = true →
  eval p T (EBin Add (EVar x) (EVar y)) st = Some (RVal CInt (a + b), st) ∧
  eval p T (EBin Sub (EVar x) (EVar y)) st = Some (RVal CInt (a - b), st).
Proof.
  intros Htu Hc Hi. unfold is_value. rewrite (resolve_utf8char _ _ _ Htu).
  intros Hx Hy Ha Hb Ra Rb.
  destruct (char_values_in_int p a b Hc Hi Ra Rb) as (Ia & Ib & Iadd & Isub).
  split; simpl;
    repeat (first [rewrite Hx | rewrite Hy | rewrite Ha | rewrite Hb]; simpl);
    change (common_type CChar CChar) with CInt;
    rewrite !convert_int_id by (done || lia);
    unfold arith; simpl; by rewrite ?Iadd, ?Isub.
Qed.

Lemma utf8char_arithmetic_in_int_witness :
  eval (Platform 8 true 32) header_typedefs (EBin Add (EVar "x") (EVar "y"))
    (State {["x" := CChar; "y" := CChar]} {["x" := 127; "y" := 127]} [])
  = Some (RVal CInt (127 + 127),
          State {["x" := CChar; "y" := CChar]} {["x" := 127; "y" := 127]} []).
Proof.
  apply (utf8char_arithmetic_in_int (Platform 8 true 32) ∅
           header_macros header_typedefs
           (State {["x" := CChar; "y" := CChar]} {["x" := 127; "y" := 127]} [])
           "x" "y" 127 127); try reflexivity; simpl; lia.
Defined.

(** X13.  Incrementing a [uint] wraps and never fails.  For a variable
    [x] of type [uint] that holds [a], both [x++] and [++x] succeed and
    store [(a + 1) mod 2 ^ w] (so [0] after the largest value); [x++]
    yields the old value, [++x] the variable. *)
Theorem uint_increment_wraps (p : platform) (D : gmap string macro) M T
    (st : state) (x : string) (a : Z) :
  translation_unit D = Some (M, T) →
  st_types st !! x = resolve T uint →
  st_store st !! x = Some a →
  is_value p T uint a = true →
  eval p T (EPostInc (EVar x)) st
    = Some (RVal CUInt a, write st x ((a + 1) mod 2 ^ int_bits p)) ∧
  eval p T (EPreInc (EVar x)) st
    = Some (RLval x, write st x ((a + 1) mod 2 ^ int_bits p)) ∧
  (a = 2 ^ int_bits p - 1 → (a + 1) mod 2 ^ int_bits p = 0).
Proof.
  intros Htu. unfold is_value. rewrite (resolve_uint _ _ _ Htu).
  intros Hx Ha Ra.
  assert (Hinc : increment p CUInt a = Some ((a + 1) mod 2 ^ int_bits p)).
  { unfold increment. change (common_type CUInt CInt) with CUInt.
    rewrite (convert_uint_id p a Ra). unfold arith. simpl.
    f_equal. unfold convert. cbn [type_bits type_signed].
    apply Z.mod_mod. revert Ra. unfold in_range, type_range.
    cbn [type_bits type_signed mbind option_bind].
    rewrite andb_true_iff, Z.leb_le, Z.ltb_lt. lia. }
  split_and!.
  - cbn [eval]. rewrite Hx. cbn [mbind option_bind load]. rewrite Hx, Ha.
    cbn [mbind option_bind]. by rewrite Hinc.
  - cbn [eval]. rewrite Hx. cbn [mbind option_bind load]. rewrite Hx, Ha.
    cbn [mbind option_bind]. by rewrite Hinc.
  - intros ->. replace (2 ^ int_bits p - 1 + 1) with (2 ^ int_bits p) by lia.
    apply Z.mod_same. revert Ra. unfold in_range, type_range.
    cbn [type_bits type_signed mbind option_bind].
    rewrite andb_true_iff, Z.leb_le, Z.ltb_lt. lia.
Qed.

Lemma uint_increment_wraps_witness :
  eval (Platform 8 true 32) header_typedefs (EPostInc (EVar "n"))
    (State {["n" := CUInt]} {["n" := 4294967295]} [])
  = Some (RVal CUInt 4294967295,
          write (State {["n" := CUInt]} {["n" := 4294967295]} []) "n"
            ((4294967295 + 1) mod 2 ^ int_bits (Platform 8 true 32))).
Proof.
  apply (uint_increment_wraps (Platform 8 true 32) ∅ header_macros header_typedefs
           (State {["n" := CUInt]} {["n" := 4294967295]} []) "n" 4294967295);
    reflexivity.
Defined.

(** ** The number of arguments *)

(** X14.  [UNUSED] takes one argument, and not an empty one: with any
    other number of arguments there is no replacement, and with an empty
    argument the replacement is [(void);], which does not compile. *)
Theorem UNUSED_one_argument (p : platform) (D : gmap string macro) M Th :
  translation_unit D = Some (M, Th) →
  (∀ args, length args ≠ 1%nat → expand_function M "UNUSED" args = None) ∧
  UNUSED M [] = Some [TLParen; TVoid; TRParen; TSemi] ∧
  (∀ T Γ, compile_stmt p T Γ [TLParen; TVoid; TRParen; TSemi] = None).
Proof.
  intros Htu. split_and!.
  - intros args Hn. apply translation_unit_inv in Htu as (_ & HU & _).
    unfold expand_function. rewrite HU.
    destruct args as [|a [|b args]]; done.
  - exact (UNUSED_tokens _ _ _ [] Htu).
  - intros T Γ. reflexivity.
Qed.

Lemma UNUSED_one_argument_witness :
  expand_function header_macros "UNUSED" [[TIdent "a"]; [TIdent "b"]] = None.
Proof.
  assert (Htu : translation_unit ∅ = Some (header_macros, header_typedefs))
    by reflexivity.
  apply (UNUSED_one_argument (Platform 8 true 32) ∅ header_macros header_typedefs Htu).
  simpl. lia.
Defined.
